(** * Exponential backoff with optional full jitter

    A shallow embedding of package [backoff]: the [Backoff] record, its
    constructor [New] with the functional option [WithJitter], and the two
    methods [Next] and [Reset].

    - [time.Duration] is an [int64] counting nanoseconds; it is a [Z] here,
      and the one place where the code can wrap ([b.current + 1]) has the
      two's-complement wrap-around written out.
    - [float64] is IEEE 754 binary64, taken from the Standard Library's
      executable specification [SpecFloat] at precision 53 and [emax] 1024.
      Converting a float to [int64] truncates; where the truncated float
      does not fit, Go leaves the result to the implementation, and the
      model takes it as a parameter.
    - [rand.Int63n] is taken by its contract: it panics on [n <= 0] and
      otherwise reduces the accepted 63-bit draw modulo [n].  The draw is an
      input of the call.
    - [Next] and [Reset] are first given as functions on the fields, as one
      caller sees them.  The mutex [mu] appears in the second part, where
      goroutines run the statements of the two bodies interleaved. *)

From Stdlib Require Import ZArith List Bool Lia QArith Qpower Qround.
From Stdlib Require Import Sorting.Sorted.
From Stdlib Require Import Floats.SpecFloat.
Import ListNotations.

Local Open Scope Z_scope.

(** ** Machine integers *)

Definition Duration := Z.

Definition MinInt64 : Z := - 2 ^ 63.
Definition MaxInt64 : Z := 2 ^ 63 - 1.

Definition is_int64 (z : Z) : Prop := MinInt64 <= z <= MaxInt64.

(** Two's-complement reduction of an integer to [int64]. *)
Definition wrap64 (z : Z) : Z := (z + 2 ^ 63) mod 2 ^ 64 - 2 ^ 63.

Definition Millisecond : Duration := 1000000.
Definition Second : Duration := 1000000000.

(** ** float64 *)

Definition float64 := spec_float.

Definition prec64 : Z := 53.
Definition emax64 : Z := 1024.

(** [float64(x)] for an [int64] [x]: round to nearest, ties to even. *)
Definition float64_of_int64 (x : Z) : float64 :=
  binary_normalize prec64 emax64 x 0 false.

(** [x * y] on [float64]. *)
Definition fmul (x y : float64) : float64 := SFmul prec64 emax64 x y.

(** The fraction of a finite float is discarded (truncation towards zero);
    infinities and NaN have no integer part. *)
Definition SFtrunc (f : float64) : option Z :=
  match f with
  | S754_zero _ => Some 0
  | S754_finite s m e =>
      let a := if 0 <=? e then Zpos m * 2 ^ e else Zpos m / 2 ^ (- e) in
      Some (if s then - a else a)
  | S754_infinity _ | S754_nan => None
  end.

(** The value [m * 2^e] of a finite float as a rational; the other floats
    are sent to [0] and are told apart by [is_finite]. *)
Definition SF2Q (f : float64) : Q :=
  match f with
  | S754_finite s m e => (inject_Z (if s then Zneg m else Zpos m) * 2 ^ e)%Q
  | _ => 0%Q
  end.

Definition is_finite (f : float64) : bool :=
  match f with
  | S754_zero _ | S754_finite _ _ _ => true
  | _ => false
  end.

(** Some float64 constants. *)
Definition f64_1 : float64 := Eval cbv in float64_of_int64 1.
Definition f64_2 : float64 := Eval cbv in float64_of_int64 2.
Definition f64_1000 : float64 := Eval cbv in float64_of_int64 1000.
Definition f64_1e10 : float64 := Eval cbv in float64_of_int64 10000000000.
Definition f64_1_5 : float64 := S754_finite false 6755399441055744 (-52).
Definition f64_1_001 : float64 := S754_finite false 4508103226997866 (-52).
Definition f64_4_3 : float64 := S754_finite false 6004799503160661 (-52).
Definition f64_inf : float64 := S754_infinity false.

(** ** Results of a call *)

Inductive result : Type :=
| Ok (d : Duration)
| Panic.

(** ** The Backoff object *)

Record Backoff : Type := mkBackoff {
  initial : Duration;
  factor : float64;
  max : Duration;
  withJitter : bool;
  current : Duration;
  initialized : bool
}.

Definition Option := Backoff -> Backoff.

Definition WithJitter (enabled : bool) : Option :=
  fun b => mkBackoff (initial b) (factor b) (max b) enabled
                     (current b) (initialized b).

Definition New (initial0 : Duration) (factor0 : float64) (max0 : Duration)
           (opts : list Option) : Backoff :=
  fold_left (fun b (opt : Option) => opt b) opts
            (mkBackoff initial0 factor0 max0 true 0 false).

(** [rand.Int63n(n)], with [r] the 63-bit draw that the generator accepts. *)
Definition Int63n (r : Z) (n : Z) : result :=
  if n <=? 0 then Panic else Ok (r mod n).

Definition Reset (b : Backoff) : Backoff :=
  mkBackoff (initial b) (factor b) (max b) (withJitter b) (current b) false.

(** A caller's operations on one instance. *)
Inductive op : Type :=
| CallNext (r : Z)
| CallReset.

Section Semantics.

(** Go leaves the value of a float-to-integer conversion
    implementation-dependent when the integer type cannot represent the
    truncated float.  [conv_undef] is that value; it is reduced to an
    [int64] because the conversion yields one. *)
Variable conv_undef : float64 -> Z.

(** [time.Duration(f)] for a [float64] [f]. *)
Definition Duration_of_float64 (f : float64) : Duration :=
  match SFtrunc f with
  | Some z =>
      if (MinInt64 <=? z) && (z <=? MaxInt64) then z
      else wrap64 (conv_undef f)
  | None => wrap64 (conv_undef f)
  end.

(** The growth step without the clamp: [time.Duration(float64(c) * f)]. *)
Definition grow (f : float64) (c : Duration) : Duration :=
  Duration_of_float64 (fmul (float64_of_int64 c) f).

(** The state update of [Next]: the first branch is the first call, the
    second one grows [current] and clamps it. *)
Definition advance (b : Backoff) : Backoff :=
  if negb (initialized b) then
    mkBackoff (initial b) (factor b) (max b) (withJitter b) (initial b) true
  else
    let next := grow (factor b) (current b) in
    let next := if next >? max b then max b else next in
    mkBackoff (initial b) (factor b) (max b) (withJitter b) next
              (initialized b).

(** [Next]: the fields are written before the jitter is drawn, so the
    state is updated also when [rand.Int63n] panics. *)
Definition Next (b : Backoff) (r : Z) : Backoff * result :=
  let b' := advance b in
  if withJitter b' then (b', Int63n r (wrap64 (current b' + 1)))
  else (b', Ok (current b')).

(** ** Sequences of calls *)

(** Successive [Next] calls, one draw per call. *)
Fixpoint run (b : Backoff) (draws : list Z) : Backoff * list result :=
  match draws with
  | [] => (b, [])
  | r :: draws' =>
      let (b1, o) := Next b r in
      let (b2, os) := run b1 draws' in
      (b2, o :: os)
  end.

Definition outputs (b : Backoff) (draws : list Z) : list result :=
  snd (run b draws).

Definition exec_op (b : Backoff) (o : op) : Backoff :=
  match o with
  | CallNext r => fst (Next b r)
  | CallReset => Reset b
  end.

Definition exec (b : Backoff) (ops : list op) : Backoff :=
  fold_left exec_op ops b.

(** What the [Next] calls of a sequence of operations return, in order. *)
Fixpoint trace (b : Backoff) (ops : list op) : list result :=
  match ops with
  | [] => []
  | CallNext r :: ops' =>
      let (b', o) := Next b r in o :: trace b' ops'
  | CallReset :: ops' => trace (Reset b) ops'
  end.

End Semantics.

(** ** Two implementations of the out-of-range conversion *)

(** amd64: [CVTTSD2SQ] yields the integer indefinite value [0x8000000000000000]
    for NaN and for every float outside [int64]. *)
Definition amd64_conv : float64 -> Z := fun _ => MinInt64.

(** arm64: [FCVTZS] saturates and sends NaN to [0]. *)
Definition arm64_conv (f : float64) : Z :=
  match f with
  | S754_nan | S754_zero _ => 0
  | S754_infinity s | S754_finite s _ _ => if s then MinInt64 else MaxInt64
  end.

(** ** The sequence the specification describes *)

(** [initial, initial*factor, initial*factor^2, ...], each product converted
    back to a duration. *)
Fixpoint geometric (conv_undef : float64 -> Z) (f : float64) (i : Duration)
         (n : nat) : Duration :=
  match n with
  | O => i
  | S k => grow conv_undef f (geometric conv_undef f i k)
  end.

(** The geometric sequence until one of its values exceeds [m], and [m] from
    then on. *)
Definition clamped_geometric (conv_undef : float64 -> Z) (f : float64)
           (i m : Duration) (n : nat) : Duration :=
  if forallb (fun k => geometric conv_undef f i k <=? m) (seq 0 (S n))
  then geometric conv_undef f i n
  else m.

(** ** Concurrent callers *)

(** Where a goroutine stands inside a call: every constructor but [Idle] is a
    point between two statements of [Next] or [Reset], after [b.mu.Lock()]
    and before the deferred [b.mu.Unlock()] has run. *)
Inductive point : Type :=
| Idle
| NextTest (r : Z)
| NextSetCurrent (r : Z)
| NextSetInitialized (r : Z)
| NextGrow (r : Z)
| NextClamp (r : Z) (next : Duration)
| NextStore (r : Z) (next : Duration)
| NextJitter (r : Z)
| NextReturn (res : result)
| ResetClear
| ResetReturn.

Record goroutine : Type := mkGoroutine {
  at_point : point;
  todo : list op;
  returned : list result
}.

(** One shared [Backoff], its mutex [mu] (held by at most one goroutine) and
    the goroutines calling it. *)
Record world : Type := mkWorld {
  shared : Backoff;
  mu : option nat;
  goroutines : list goroutine
}.

Fixpoint upd {A} (n : nat) (x : A) (l : list A) : list A :=
  match l, n with
  | [], _ => []
  | _ :: l', O => x :: l'
  | y :: l', S n' => y :: upd n' x l'
  end.

Definition entry (o : op) : point :=
  match o with
  | CallNext r => NextTest r
  | CallReset => ResetClear
  end.

Section Concurrent.

Variable conv_undef : float64 -> Z.

(** One statement of a call body, on the shared fields. *)
Definition body_step (b : Backoff) (p : point) : Backoff * point :=
  match p with
  | NextTest r =>
      if negb (initialized b) then (b, NextSetCurrent r) else (b, NextGrow r)
  | NextSetCurrent r =>
      (mkBackoff (initial b) (factor b) (max b) (withJitter b) (initial b)
                 (initialized b),
       NextSetInitialized r)
  | NextSetInitialized r =>
      (mkBackoff (initial b) (factor b) (max b) (withJitter b) (current b)
                 true,
       NextJitter r)
  | NextGrow r => (b, NextClamp r (grow conv_undef (factor b) (current b)))
  | NextClamp r next =>
      (b, NextStore r (if next >? max b then max b else next))
  | NextStore r next =>
      (mkBackoff (initial b) (factor b) (max b) (withJitter b) next
                 (initialized b),
       NextJitter r)
  | NextJitter r =>
      (b, NextReturn (if withJitter b
                      then Int63n r (wrap64 (current b + 1))
                      else Ok (current b)))
  | ResetClear =>
      (mkBackoff (initial b) (factor b) (max b) (withJitter b) (current b)
                 false,
       ResetReturn)
  | Idle | NextReturn _ | ResetReturn => (b, p)
  end.

(** Goroutine [t] takes one step; the boolean tells a lock acquisition.
    [Lock] needs the mutex free; the statements of a body run whoever holds
    the mutex; the deferred [Unlock] releases it and the call returns. *)
Definition sched_step (w : world) (t : nat) : option (world * bool) :=
  match nth_error (goroutines w) t with
  | None => None
  | Some g =>
      match at_point g with
      | Idle =>
          match todo g, mu w with
          | o :: rest, None =>
              Some (mkWorld (shared w) (Some t)
                      (upd t (mkGoroutine (entry o) rest (returned g))
                           (goroutines w)),
                    true)
          | _, _ => None
          end
      | NextReturn res =>
          Some (mkWorld (shared w) None
                  (upd t (mkGoroutine Idle (todo g) (returned g ++ [res]))
                       (goroutines w)),
                false)
      | ResetReturn =>
          Some (mkWorld (shared w) None
                  (upd t (mkGoroutine Idle (todo g) (returned g))
                       (goroutines w)),
                false)
      | p =>
          let (b', p') := body_step (shared w) p in
          Some (mkWorld b' (mu w)
                  (upd t (mkGoroutine p' (todo g) (returned g))
                       (goroutines w)),
                false)
      end
  end.

(** An interleaving: the goroutines scheduled, one step each; the result
    carries the order in which the calls acquired the mutex. *)
Fixpoint sched_run (w : world) (sched : list nat)
  : option (world * list nat) :=
  match sched with
  | [] => Some (w, [])
  | t :: sched' =>
      match sched_step w t with
      | None => None
      | Some (w1, acquired) =>
          match sched_run w1 sched' with
          | None => None
          | Some (w2, order) =>
              Some (w2, if acquired then t :: order else order)
          end
      end
  end.

(** The sequential meaning of one call. *)
Definition apply_op (b : Backoff) (o : op) : Backoff * list result :=
  match o with
  | CallNext r => let (b', res) := Next conv_undef b r in (b', [res])
  | CallReset => (Reset b, [])
  end.

(** Goroutine [t] runs its next call alone, from start to end. *)
Definition serial_step (w : world) (t : nat) : option world :=
  match nth_error (goroutines w) t with
  | None => None
  | Some g =>
      match at_point g, todo g, mu w with
      | Idle, o :: rest, None =>
          let (b', res) := apply_op (shared w) o in
          Some (mkWorld b' None
                  (upd t (mkGoroutine Idle rest (returned g ++ res))
                       (goroutines w)))
      | _, _, _ => None
      end
  end.

Fixpoint serial_run (w : world) (order : list nat) : option world :=
  match order with
  | [] => Some w
  | t :: order' =>
      match serial_step w t with
      | None => None
      | Some w1 => serial_run w1 order'
      end
  end.

(** What a call that stands at [p] will have done to the shared fields, and
    what it will return, when it runs on alone: its remaining statements are
    executed one after the other. *)
Fixpoint finish (fuel : nat) (b : Backoff) (p : point)
  : Backoff * list result :=
  match p with
  | Idle | ResetReturn => (b, [])
  | NextReturn res => (b, [res])
  | _ =>
      match fuel with
      | O => (b, [])
      | S k => let (b', p') := body_step b p in finish k b' p'
      end
  end.

Definition remaining (p : point) : nat :=
  match p with
  | NextTest _ => 5
  | NextGrow _ => 4
  | NextSetCurrent _ | NextClamp _ _ => 3
  | NextSetInitialized _ | NextStore _ _ => 2
  | NextJitter _ | ResetClear => 1
  | Idle | NextReturn _ | ResetReturn => 0
  end.

Definition outcome (b : Backoff) (p : point) : Backoff * list result :=
  finish (remaining p) b p.

End Concurrent.

(** The world once the call of [t], which stands at [at_point g], has run
    to its end and released the mutex. *)
Definition settle conv (w : world) (t : nat) (g : goroutine) : world :=
  let (b', res) := outcome conv (shared w) (at_point g) in
  mkWorld b' None
          (upd t (mkGoroutine Idle (todo g) (returned g ++ res))
               (goroutines w)).

Definition all_idle (w : world) : Prop :=
  forall t g, nth_error (goroutines w) t = Some g -> at_point g = Idle.

Definition others_idle (w : world) (t : nat) : Prop :=
  forall t' g,
    t' <> t -> nth_error (goroutines w) t' = Some g -> at_point g = Idle.

(** Mutual exclusion: the mutex is free and every goroutine stands between
    two calls, or the goroutine that holds it, and no other, stands inside a
    call. *)
Definition well_locked (w : world) : Prop :=
  match mu w with
  | None => all_idle w
  | Some t =>
      (exists g, nth_error (goroutines w) t = Some g /\ at_point g <> Idle) /\
      others_idle w t
  end.

(** The points from which a statement of a body is run next. *)
Definition in_body (p : point) : bool :=
  match p with
  | Idle | NextReturn _ | ResetReturn => false
  | _ => true
  end.

(** ** States that no caller can tell apart *)

(** Two states with the same parameters and the same [initialized] flag,
    whose [current] may differ as long as the object is not initialized. *)
Definition same_behaviour (b1 b2 : Backoff) : Prop :=
  initial b1 = initial b2 /\ factor b1 = factor b2 /\ max b1 = max b2 /\
  withJitter b1 = withJitter b2 /\ initialized b1 = initialized b2 /\
  (initialized b1 = true -> current b1 = current b2).

(** ** Auxiliary notions for the rounding proofs *)

(** The exponent that binary64 gives to a number of [x] binary digits. *)
Definition fexp64 (x : Z) : Z := fexp prec64 emax64 x.

(** The number of low bits that rounding [M * 2^E] to binary64 drops. *)
Definition shift1 (M E : Z) : Z := Z.max 0 (fexp64 (Zdigits2 M + E) - E).

(** The integer part of [V * 2^E'] for [V >= 0]. *)
Definition tr (V E' : Z) : Z :=
  if 0 <=? E' then V * 2 ^ E' else V / 2 ^ (- E').

(** [2^E = pexp E / nexp E], with one of the two equal to [1]. *)
Definition pexp (E : Z) : Z := 2 ^ Z.max E 0.
Definition nexp (E : Z) : Z := 2 ^ Z.max (- E) 0.

(** The largest float64 below [2^63]: products up to it convert to [int64]
    whichever way they are rounded. *)
Definition MaxExact : Z := 2 ^ 63 - 1024.

(** ** Shapes of runs and the band of a well-configured instance *)

(** The float64 [0.75], a factor below one. *)
Definition f64_0_75 : float64 := S754_finite false 6755399441055744 (-53).

(** Whether an operation is a [Reset]; the draws of the [Next] calls are
    forgotten. *)
Definition is_reset (o : op) : bool :=
  match o with
  | CallNext _ => false
  | CallReset => true
  end.

(** The band in which a well-configured instance stays once it is
    initialized. *)
Definition in_band (i : Duration) (f : float64) (m : Duration) (j : bool)
           (b : Backoff) : Prop :=
  initial b = i /\ factor b = f /\ max b = m /\ withJitter b = j /\
  (initialized b = true -> i <= current b <= m).

(** What a call may return from inside the band: at least [initial] without
    jitter, at least [0] with jitter, at most [max]. *)
Definition band_result (i m : Duration) (j : bool) (o : result) : Prop :=
  exists d, o = Ok d /\ (if j then 0 else i) <= d <= m.

(** ** The HTTP retry example *)

(** [http.Response], as far as [fetchWithRetry] reads it. *)
Record Response : Type := mkResponse { StatusCode : Z }.

Definition StatusOK : Z := 200.

(** Go's [error] values, told apart by a number. *)
Definition error : Type := nat.

(** How [fetchWithRetry] ends: it returns [(resp, err)], either of which may
    be nil, or it panics. *)
Inductive fetch_result : Type :=
| Returned (resp : option Response) (err : option error)
| Panicked.

(** What the loop makes of one [http.Get]: [err == nil && resp.StatusCode ==
    http.StatusOK] dereferences [resp] only when [err] is nil. *)
Inductive verdict : Type := Success | Failure | NilDereference.

Definition judge (resp : option Response) (err : option error) : verdict :=
  match err, resp with
  | None, Some r => if StatusCode r =? StatusOK then Success else Failure
  | None, None => NilDereference
  | Some _, _ => Failure
  end.

Section FetchWithRetry.

Variable conv_undef : float64 -> Z.
(** The outcome of the [i]-th [http.Get(url)] and the draw of the [i]-th
    [b.Next()]. *)
Variable get : nat -> option Response * option error.
Variable draws : nat -> Z.
Variable maxRetries : Z.

(** The loop [for i := 0; i < maxRetries; i++] with [rounds] iterations
    left.  The result comes with the number of requests made and the
    durations slept, in order. *)
Fixpoint retry_loop (rounds i : nat) (b : Backoff)
         (resp : option Response) (err : option error)
  : fetch_result * nat * list Duration :=
  match rounds with
  | O => (Returned resp err, O, [])
  | S rounds' =>
      let (resp1, err1) := get i in
      match judge resp1 err1 with
      | NilDereference => (Panicked, 1%nat, [])
      | Success => (Returned resp1 None, 1%nat, [])
      | Failure =>
          if Z.of_nat i <? wrap64 (maxRetries - 1) then
            match Next conv_undef b (draws i) with
            | (b', Ok wait) =>
                let '(res, q, sl) := retry_loop rounds' (S i) b' resp1 err1 in
                (res, S q, wait :: sl)
            | (_, Panic) => (Panicked, 1%nat, [])
            end
          else
            let '(res, q, sl) := retry_loop rounds' (S i) b resp1 err1 in
            (res, S q, sl)
      end
  end.

Definition fetchWithRetry : fetch_result * nat * list Duration :=
  retry_loop (Z.to_nat maxRetries) 0
             (New (100 * Millisecond) f64_2 (5 * Second) []) None None.

End FetchWithRetry.

(** The instance of [fetchWithRetry] after [i] calls of [Next]. *)
Definition fetch_backoff (i : nat) : Backoff :=
  match i with
  | O => New (100 * Millisecond) f64_2 (5 * Second) []
  | S p =>
      mkBackoff (100 * Millisecond) f64_2 (5 * Second) true
                (Z.min (100 * Millisecond * 2 ^ Z.of_nat p) (5 * Second)) true
  end.

(** The [k]-th wait of [fetchWithRetry]: a draw from
    [[0, min(100ms * 2^k, 5s)]]. *)
Definition fetch_wait (draws : nat -> Z) (k : nat) : Duration :=
  draws k mod (Z.min (100 * Millisecond * 2 ^ Z.of_nat k) (5 * Second) + 1).

(** The verdict on the [k]-th request. *)
Definition attempt (get : nat -> option Response * option error) (k : nat)
  : verdict :=
  judge (fst (get k)) (snd (get k)).

(** * Properties *)

(** ** Basic facts *)

Lemma last_cons_default {A} (a : A) l d d' :
  last (a :: l) d = last (a :: l) d'.
Proof.
  revert a; induction l as [|x l IH]; intros a; [reflexivity|].
  change (last (x :: l) d = last (x :: l) d'); apply IH.
Qed.

Lemma fold_WithJitter (js : list bool) (b : Backoff) :
  fold_left (fun b (opt : Option) => opt b) (map WithJitter js) b =
  mkBackoff (initial b) (factor b) (max b) (last js (withJitter b))
            (current b) (initialized b).
Proof.
  revert b; induction js as [|j js IH]; intros b; simpl.
  - now destruct b.
  - rewrite IH; simpl. destruct js as [|j' js]; [reflexivity|].
    now rewrite (last_cons_default j' js j (withJitter b)).
Qed.

Lemma New_WithJitter i f m js :
  New i f m (map WithJitter js) = mkBackoff i f m (last js true) 0 false.
Proof. unfold New; now rewrite fold_WithJitter. Qed.

Lemma wrap64_small z : MinInt64 <= z <= MaxInt64 -> wrap64 z = z.
Proof.
  unfold MinInt64, MaxInt64, wrap64; intros H.
  rewrite Z.mod_small; lia.
Qed.

Lemma wrap64_succ_MaxInt64 : wrap64 (MaxInt64 + 1) = MinInt64.
Proof. reflexivity. Qed.

Lemma Int63n_range r n : 0 < n -> exists d, Int63n r n = Ok d /\ 0 <= d < n.
Proof.
  intros Hn; unfold Int63n.
  destruct (n <=? 0) eqn:E; [apply Z.leb_le in E; lia|].
  exists (r mod n); split; [reflexivity | now apply Z.mod_pos_bound].
Qed.

(** The bound [n - 1] of a draw is reached: the interval is closed. *)
Lemma Int63n_attains u :
  0 <= u < MaxInt64 -> Int63n u (wrap64 (u + 1)) = Ok u.
Proof.
  intros Hu. rewrite wrap64_small by (unfold MinInt64, MaxInt64 in *; lia).
  unfold Int63n. destruct (u + 1 <=? 0) eqn:E; [apply Z.leb_le in E; lia|].
  now rewrite Z.mod_small by lia.
Qed.

Section Facts.

Variable conv : float64 -> Z.

Lemma advance_params b :
  initial (advance conv b) = initial b /\
  factor (advance conv b) = factor b /\
  max (advance conv b) = max b /\
  withJitter (advance conv b) = withJitter b /\
  initialized (advance conv b) = true.
Proof.
  unfold advance; destruct (initialized b) eqn:E; simpl; auto.
Qed.

Lemma fst_Next b r : fst (Next conv b r) = advance conv b.
Proof. unfold Next; now destruct (withJitter (advance conv b)). Qed.

Lemma snd_Next b r :
  snd (Next conv b r) =
  if withJitter b then Int63n r (wrap64 (current (advance conv b) + 1))
  else Ok (current (advance conv b)).
Proof.
  unfold Next. destruct (advance_params b) as (_ & _ & _ & -> & _).
  now destruct (withJitter b).
Qed.

Lemma advance_uninitialized b :
  initialized b = false ->
  advance conv b =
  mkBackoff (initial b) (factor b) (max b) (withJitter b) (initial b) true.
Proof. unfold advance; now intros ->. Qed.

Lemma exec_op_params b o :
  initial (exec_op conv b o) = initial b /\
  factor (exec_op conv b o) = factor b /\
  max (exec_op conv b o) = max b /\
  withJitter (exec_op conv b o) = withJitter b.
Proof.
  destruct o as [r|]; simpl.
  - rewrite fst_Next. destruct (advance_params b) as (? & ? & ? & ? & _); auto.
  - auto.
Qed.

Lemma exec_params ops b :
  initial (exec conv b ops) = initial b /\
  factor (exec conv b ops) = factor b /\
  max (exec conv b ops) = max b /\
  withJitter (exec conv b ops) = withJitter b.
Proof.
  revert b; induction ops as [|o ops IH]; intros b; simpl; auto.
  destruct (IH (exec_op conv b o)) as (-> & -> & -> & ->).
  apply exec_op_params.
Qed.

(** The first [Next] after a [Reset] leaves the object in the state that the
    first [Next] after [New] leaves it in: the stale [current] is overwritten
    before it is read. *)
Lemma Next_Reset_exec i f m js ops r :
  Next conv (Reset (exec conv (New i f m (map WithJitter js)) ops)) r =
  Next conv (New i f m (map WithJitter js)) r.
Proof.
  unfold Next.
  rewrite !advance_uninitialized by (try rewrite New_WithJitter; reflexivity).
  simpl.
  destruct (exec_params ops (New i f m (map WithJitter js)))
    as (-> & -> & -> & ->).
  reflexivity.
Qed.

Lemma outputs_cons b r draws :
  outputs conv b (r :: draws) =
  snd (Next conv b r) :: outputs conv (advance conv b) draws.
Proof.
  unfold outputs; simpl. rewrite <- fst_Next with (r := r).
  destruct (Next conv b r) as [b1 o]; simpl.
  now destruct (run conv b1 draws).
Qed.

Lemma trace_CallNext b r ops :
  trace conv b (CallNext r :: ops) =
  snd (Next conv b r) :: trace conv (advance conv b) ops.
Proof.
  cbn [trace]. rewrite <- fst_Next with (r := r).
  now destruct (Next conv b r).
Qed.

Lemma outputs_trace b draws :
  outputs conv b draws = trace conv b (map CallNext draws).
Proof.
  revert b; induction draws as [|r draws IH]; intros b; [reflexivity|].
  cbn [map]. now rewrite outputs_cons, trace_CallNext, IH.
Qed.

Lemma exec_cons b o ops : exec conv b (o :: ops) = exec conv (exec_op conv b o) ops.
Proof. reflexivity. Qed.

(** States that differ only in a [current] that will be overwritten take
    the same step. *)
Lemma same_behaviour_advance b1 b2 :
  same_behaviour b1 b2 -> advance conv b1 = advance conv b2.
Proof.
  destruct b1 as [i1 f1 m1 j1 c1 z1], b2 as [i2 f2 m2 j2 c2 z2].
  unfold same_behaviour, advance; simpl.
  intros (-> & -> & -> & -> & -> & Hc).
  destruct z2; simpl; [now rewrite Hc | reflexivity].
Qed.

Lemma same_behaviour_Reset b1 b2 :
  same_behaviour b1 b2 -> same_behaviour (Reset b1) (Reset b2).
Proof.
  unfold same_behaviour; simpl. intros (? & ? & ? & ? & ? & ?).
  repeat split; auto; discriminate.
Qed.

Lemma same_behaviour_trace ops :
  forall b1 b2,
    same_behaviour b1 b2 -> trace conv b1 ops = trace conv b2 ops.
Proof.
  induction ops as [|[r|] ops IH]; intros b1 b2 H; [reflexivity| |].
  - rewrite !trace_CallNext, !snd_Next.
    rewrite (same_behaviour_advance b1 b2 H).
    now destruct H as (_ & _ & _ & -> & _).
  - cbn [trace]. now apply IH, same_behaviour_Reset.
Qed.

Lemma same_behaviour_Reset_exec i f m js ops :
  same_behaviour (Reset (exec conv (New i f m (map WithJitter js)) ops))
                 (New i f m (map WithJitter js)).
Proof.
  destruct (exec_params ops (New i f m (map WithJitter js)))
    as (Hi & Hf & Hm & Hj).
  rewrite New_WithJitter in *. unfold same_behaviour; simpl.
  repeat split; auto; discriminate.
Qed.

End Facts.

(** ** The expectations of the repository's tests

    The unjittered cases of [TestBackoff_Next], [TestBackoff_Reset] and
    [TestBackoff_EdgeCases], evaluated on the model. *)

Example test_exponential_growth :
  outputs amd64_conv (New (100 * Millisecond) f64_2 Second [WithJitter false])
          [0; 0; 0; 0]
  = [Ok (100 * Millisecond); Ok (200 * Millisecond); Ok (400 * Millisecond);
     Ok (800 * Millisecond)].
Proof. reflexivity. Qed.

Example test_hits_max_limit :
  outputs amd64_conv
          (New (500 * Millisecond) f64_2 (800 * Millisecond) [WithJitter false])
          [0; 0; 0]
  = [Ok (500 * Millisecond); Ok (800 * Millisecond); Ok (800 * Millisecond)].
Proof. reflexivity. Qed.

Example test_factor_one_no_growth :
  outputs amd64_conv (New (200 * Millisecond) f64_1 Second [WithJitter false])
          [0; 0; 0]
  = [Ok (200 * Millisecond); Ok (200 * Millisecond); Ok (200 * Millisecond)].
Proof. reflexivity. Qed.

Example test_Reset :
  trace amd64_conv (New (100 * Millisecond) f64_2 Second [WithJitter false])
        [CallNext 0; CallNext 0; CallReset; CallNext 0]
  = [Ok (100 * Millisecond); Ok (200 * Millisecond); Ok (100 * Millisecond)].
Proof. reflexivity. Qed.

Example test_very_small_factor :
  outputs amd64_conv
          (New (100 * Millisecond) f64_1_001 Second [WithJitter false])
          [0; 0; 0; 0; 0]
  = [Ok 100000000; Ok 100099999; Ok 100200098; Ok 100300298; Ok 100400598].
Proof. reflexivity. Qed.

Example test_max_smaller_than_initial :
  outputs amd64_conv
          (New Second f64_2 (500 * Millisecond) [WithJitter false])
          [0; 0; 0; 0; 0]
  = [Ok Second; Ok (500 * Millisecond); Ok (500 * Millisecond);
     Ok (500 * Millisecond); Ok (500 * Millisecond)].
Proof. reflexivity. Qed.

Example test_very_large_factor :
  outputs amd64_conv (New 1 f64_1000 Second [WithJitter false])
          [0; 0; 0; 0; 0]
  = [Ok 1; Ok 1000; Ok 1000000; Ok Second; Ok Second].
Proof. reflexivity. Qed.

(** The product is the float64 one: [3 * 1.3333333333333333] is rounded to
    [4.0] before the conversion truncates it, though the real product lies
    below [4]. *)
Example float64_product_is_rounded :
  grow amd64_conv f64_4_3 3 = 4 /\
  Qfloor (inject_Z 3 * SF2Q f64_4_3) = 3.
Proof. split; reflexivity. Qed.

(** ** Reset *)

(** C6 (as amended): [Reset] sets [initialized] to false and leaves every
    other field as it was: [initial], [factor], [max], [withJitter] and also
    [current], which is not zeroed. *)
Theorem Reset_clears_only_initialized (b : Backoff) :
  initialized (Reset b) = false /\
  current (Reset b) = current b /\
  initial (Reset b) = initial b /\
  factor (Reset b) = factor b /\
  max (Reset b) = max b /\
  withJitter (Reset b) = withJitter b.
Proof.
  destruct b as [i f m j c z]. unfold Reset.
  cbn [initial factor max withJitter current initialized].
  repeat split; reflexivity.
Qed.

(** C6, counterexample: after one [Next] on [New(100ms, 2, 1s)] without
    jitter, [Reset] leaves [current] at 100ms; it is not zero. *)
Lemma Reset_keeps_stale_current :
  current (Reset (fst (Next amd64_conv
     (New (100 * Millisecond) f64_2 Second [WithJitter false]) 0)))
  = 100000000 /\
  current (Reset (fst (Next amd64_conv
     (New (100 * Millisecond) f64_2 Second [WithJitter false]) 0))) <> 0.
Proof. split; [reflexivity | discriminate]. Qed.

(** ** The first call *)

(** C2 (as amended): for every [initial], [factor] and [max], also when
    [initial > max], the first [Next] after [New] or after a [Reset] sets
    [current] to [initial] without clamping.  It returns [initial] when jitter
    is disabled; when jitter is enabled and [0 <= initial < MaxInt64] it
    returns a draw from [[0, initial]]. *)
Theorem first_Next_is_initial conv i f m js ops r b :
  b = New i f m (map WithJitter js) \/
  b = Reset (exec conv (New i f m (map WithJitter js)) ops) ->
  current (fst (Next conv b r)) = i /\
  initialized (fst (Next conv b r)) = true /\
  (withJitter b = false -> snd (Next conv b r) = Ok i) /\
  (withJitter b = true -> 0 <= i < MaxInt64 ->
   exists d, snd (Next conv b r) = Ok d /\ 0 <= d <= i).
Proof.
  intros Hb.
  assert (HN : Next conv b r = Next conv (New i f m (map WithJitter js)) r)
    by (destruct Hb as [-> | ->]; [reflexivity | apply Next_Reset_exec]).
  assert (HJ : withJitter b = last js true).
  { destruct Hb as [-> | ->].
    - now rewrite New_WithJitter.
    - simpl. destruct (exec_params conv ops (New i f m (map WithJitter js)))
        as (_ & _ & _ & ->). now rewrite New_WithJitter. }
  rewrite HN, HJ, New_WithJitter; unfold Next; simpl.
  destruct (last js true); simpl; repeat split; try discriminate.
  intros _ Hi. rewrite wrap64_small by (unfold MinInt64, MaxInt64 in *; lia).
  destruct (Int63n_range r (i + 1)) as (d & Hd & Hr); [lia|].
  exists d; split; [assumption | lia].
Qed.

Lemma first_Next_is_initial_witness :
  current (fst (Next amd64_conv
    (Reset (exec amd64_conv (New Second f64_2 (500 * Millisecond)
                                 (map WithJitter [true]))
                 [CallNext 7; CallNext 8])) 1234567890)) = Second /\
  exists d,
    snd (Next amd64_conv
      (Reset (exec amd64_conv (New Second f64_2 (500 * Millisecond)
                                   (map WithJitter [true]))
                   [CallNext 7; CallNext 8])) 1234567890) = Ok d /\
    0 <= d <= Second.
Proof.
  destruct (first_Next_is_initial amd64_conv Second f64_2 (500 * Millisecond)
              [true] [CallNext 7; CallNext 8] 1234567890 _
              (or_intror eq_refl)) as (H1 & _ & _ & H4).
  split; [exact H1|].
  apply H4; [reflexivity | unfold Second, MaxInt64; lia].
Defined.

(** C2, counterexample: with jitter enabled (the default) the first [Next]
    panics instead of returning a draw from [[0, initial]] when [initial] is
    negative ([rand.Int63n(0)]) and when [initial] is [MaxInt64]
    ([initial + 1] wraps to [MinInt64]). *)
Lemma first_Next_jitter_panics :
  snd (Next amd64_conv (New (-1) f64_2 Second []) 0) = Panic /\
  snd (Next amd64_conv (New MaxInt64 f64_2 MaxInt64 []) 0) = Panic.
Proof. split; reflexivity. Qed.

(** C5 (as amended): after any sequence of [Next] and [Reset] calls on an
    instance, [Reset] followed by [Next] yields what the first [Next] on a
    fresh instance yields for the same draw: [initial] without jitter; with
    jitter and [0 <= initial < MaxInt64] a draw from [[0, initial]].  Outside
    that range the jittered call returns nothing (see the counterexample),
    and whatever it returns is bounded by [initial]. *)
Theorem Reset_then_Next_restarts conv i f m js ops r :
  snd (Next conv (Reset (exec conv (New i f m (map WithJitter js)) ops)) r) =
  snd (Next conv (New i f m (map WithJitter js)) r) /\
  (last js true = false ->
   snd (Next conv (Reset (exec conv (New i f m (map WithJitter js)) ops)) r)
   = Ok i) /\
  (last js true = true ->
   (0 <= i < MaxInt64 ->
    exists d,
      snd (Next conv (Reset (exec conv (New i f m (map WithJitter js)) ops)) r)
      = Ok d) /\
   (forall d,
      snd (Next conv (Reset (exec conv (New i f m (map WithJitter js)) ops)) r)
      = Ok d ->
      is_int64 i -> 0 <= d <= i)).
Proof.
  rewrite Next_Reset_exec, New_WithJitter; unfold Next; simpl.
  split; [reflexivity|].
  destruct (last js true); simpl; split; try discriminate;
    try (intros _; reflexivity).
  intros _. split.
  - intros Hi. rewrite wrap64_small by (unfold MinInt64, MaxInt64 in *; lia).
    destruct (Int63n_range r (i + 1)) as (d & Hd & _); [lia|]. now exists d.
  - intros d Hd Hi. unfold is_int64 in Hi. unfold Int63n in Hd.
    destruct (wrap64 (i + 1) <=? 0) eqn:E; [discriminate|].
    apply Z.leb_gt in E. injection Hd as <-.
    assert (Hw : wrap64 (i + 1) = i + 1).
    { destruct (Z.eq_dec i MaxInt64) as [->|Hne].
      - rewrite wrap64_succ_MaxInt64 in E. unfold MinInt64 in E; lia.
      - apply wrap64_small. unfold MinInt64, MaxInt64 in *; lia. }
    rewrite Hw in *. pose proof (Z.mod_pos_bound r (i + 1) E). lia.
Qed.

(** C5, counterexample: with jitter enabled (the default), [Reset] followed
    by [Next] does not reproduce a first-call value when [initial] is
    negative or [MaxInt64]: the call panics in [rand.Int63n], right after
    construction and also after earlier calls (which panic likewise, the
    caller recovering from them). *)
Lemma Reset_then_Next_jitter_panics :
  snd (Next amd64_conv (Reset (New (-1) f64_2 Second [])) 0) = Panic /\
  snd (Next amd64_conv (Reset (New MaxInt64 f64_2 MaxInt64 [])) 0) = Panic /\
  snd (Next amd64_conv
         (Reset (exec amd64_conv (New (-1) f64_2 Second [])
                      [CallNext 0; CallNext 0])) 0) = Panic.
Proof. repeat split; reflexivity. Qed.

(** C10: [Reset] only clears the flag and leaves the stale [current] in
    place, and still, from every state reached by [Next] and [Reset] calls,
    the calls that follow a [Reset] return what the same calls return on a
    freshly constructed instance with the same parameters and the same
    draws. *)
Theorem outputs_after_Reset_as_fresh conv i f m js ops ops' :
  current (Reset (exec conv (New i f m (map WithJitter js)) ops)) =
  current (exec conv (New i f m (map WithJitter js)) ops) /\
  trace conv (Reset (exec conv (New i f m (map WithJitter js)) ops)) ops' =
  trace conv (New i f m (map WithJitter js)) ops'.
Proof.
  split; [reflexivity|].
  apply same_behaviour_trace, same_behaviour_Reset_exec.
Qed.

(** ** Jitter *)

Lemma advance_WithJitter conv j b :
  advance conv (WithJitter j b) = WithJitter j (advance conv b).
Proof. unfold advance, WithJitter; simpl. now destruct (initialized b). Qed.

Lemma Reset_WithJitter j b : Reset (WithJitter j b) = WithJitter j (Reset b).
Proof. reflexivity. Qed.

(** The state does not depend on the jitter: at every call the jittered run
    draws below the value that the unjittered run returns. *)
Lemma jitter_bounded_from conv ops :
  forall b n u,
    nth_error (trace conv (WithJitter false b) ops) n = Some (Ok u) ->
    0 <= u < MaxInt64 ->
    exists d,
      nth_error (trace conv (WithJitter true b) ops) n = Some (Ok d) /\
      0 <= d <= u.
Proof.
  induction ops as [|[r|] ops IH]; intros b n u Hu Hr.
  - destruct n; discriminate.
  - rewrite trace_CallNext, snd_Next, advance_WithJitter in *.
    cbn [WithJitter withJitter current] in *.
    destruct n as [|n]; cbn [nth_error] in *.
    + injection Hu as <-.
      rewrite wrap64_small by (unfold MinInt64, MaxInt64 in *; lia).
      destruct (Int63n_range r (current (advance conv b) + 1))
        as (d & -> & Hd); [lia|].
      exists d; split; [reflexivity | lia].
    + now apply IH.
  - cbn [trace] in *. rewrite Reset_WithJitter in *. now apply IH.
Qed.

(** C3 (as amended): with jitter enabled, the [n]-th [Next] returns a value
    in [[0, U_n]], bounds included, whenever [0 <= U_n < MaxInt64], where
    [U_n] is what the [n]-th [Next] returns with jitter disabled under the
    same parameters and the same sequence of calls; the draws are arbitrary
    inputs. *)
Theorem jitter_within_unjittered conv i f m ops n u :
  nth_error (trace conv (New i f m [WithJitter false]) ops) n
  = Some (Ok u) ->
  0 <= u < MaxInt64 ->
  exists d,
    nth_error (trace conv (New i f m [WithJitter true]) ops) n
    = Some (Ok d) /\
    0 <= d <= u.
Proof.
  apply (jitter_bounded_from conv ops (mkBackoff i f m true 0 false)).
Qed.

Lemma jitter_within_unjittered_witness :
  exists d,
    nth_error (trace amd64_conv
                 (New (100 * Millisecond) f64_2 Second [WithJitter true])
                 [CallNext 123456789; CallNext 987654321; CallReset;
                  CallNext 555555555; CallNext 777777777]) 3
    = Some (Ok d) /\
    0 <= d <= 200000000.
Proof.
  apply (jitter_within_unjittered amd64_conv (100 * Millisecond) f64_2 Second
           [CallNext 123456789; CallNext 987654321; CallReset;
            CallNext 555555555; CallNext 777777777] 3 200000000).
  - reflexivity.
  - unfold MaxInt64; lia.
Defined.

(** C3, counterexample: the unjittered value is [MaxInt64], so the interval
    [[0, U_1]] is not empty, and the jittered call panics because
    [current + 1] wraps to [MinInt64]; likewise for the unjittered value
    [-1], where [rand.Int63n] receives [0]. *)
Lemma jitter_panics_out_of_range :
  (nth_error (trace amd64_conv
                (New MaxInt64 f64_2 MaxInt64 [WithJitter false]) [CallNext 0]) 0
   = Some (Ok MaxInt64) /\
   nth_error (trace amd64_conv
                (New MaxInt64 f64_2 MaxInt64 [WithJitter true]) [CallNext 0]) 0
   = Some Panic) /\
  (nth_error (trace amd64_conv
                (New (-1) f64_2 Second [WithJitter false]) [CallNext 0]) 0
   = Some (Ok (-1)) /\
   nth_error (trace amd64_conv
                (New (-1) f64_2 Second [WithJitter true]) [CallNext 0]) 0
   = Some Panic).
Proof. repeat split; reflexivity. Qed.

(** ** Zero initial delay *)

Lemma grow_zero conv f : is_finite f = true -> grow conv f 0 = 0.
Proof.
  unfold grow, float64_of_int64, fmul; simpl.
  destruct f; simpl; try discriminate; reflexivity.
Qed.

Lemma zero_fixed conv f m j z ops :
  is_finite f = true -> 0 <= m ->
  Forall (fun o => o = Ok 0) (trace conv (mkBackoff 0 f m j 0 z) ops).
Proof.
  intros Hf Hm.
  assert (Ha : forall z, advance conv (mkBackoff 0 f m j 0 z)
                         = mkBackoff 0 f m j 0 true).
  { intros [|]; unfold advance; simpl; [|reflexivity].
    rewrite grow_zero by assumption.
    destruct (0 >? m) eqn:E; [|reflexivity].
    apply Z.gtb_lt in E; lia. }
  revert z; induction ops as [|[r|] ops IH]; intros z; [constructor| |].
  - rewrite trace_CallNext, snd_Next, Ha. constructor; [|apply IH].
    cbn [withJitter current]. destruct j; [|reflexivity].
    unfold Int63n; simpl. now rewrite Z.mod_1_r.
  - cbn [trace]. apply IH.
Qed.

(** C8 (as amended): if [initial = 0], [max >= 0] and [factor] is finite,
    every [Next] returns exactly [0], with or without jitter, for any number
    of calls, any draws and also across [Reset]s. *)
Theorem zero_initial_stays_zero conv f m js ops :
  is_finite f = true -> 0 <= m ->
  Forall (fun o => o = Ok 0) (trace conv (New 0 f m (map WithJitter js)) ops).
Proof.
  intros Hf Hm. rewrite New_WithJitter. now apply zero_fixed.
Qed.

Lemma zero_initial_stays_zero_witness :
  Forall (fun o => o = Ok 0)
         (trace amd64_conv (New 0 f64_2 Second (map WithJitter [true]))
                [CallNext 5; CallNext 6; CallReset; CallNext 7]).
Proof.
  apply (zero_initial_stays_zero amd64_conv f64_2 Second [true]
           [CallNext 5; CallNext 6; CallReset; CallNext 7]).
  - reflexivity.
  - unfold Second; lia.
Defined.

(** C8, counterexample: with [initial = 0] and the negative [max = -1ns] the
    second call clamps [0] down to [max] and returns [-1]; with
    [factor = +Inf] the product [0 * Inf] is NaN, whose conversion is
    [MinInt64] on amd64. *)
Lemma zero_initial_leaves_zero :
  outputs amd64_conv (New 0 f64_2 (-1) [WithJitter false]) [0; 0]
  = [Ok 0; Ok (-1)] /\
  outputs amd64_conv (New 0 f64_inf Second [WithJitter false]) [0; 0]
  = [Ok 0; Ok MinInt64].
Proof. split; reflexivity. Qed.

(** ** binary64 rounding

    [SpecFloat] rounds a mantissa [M] at exponent [E] by shifting out
    [shift1 M E] bits, rounding the kept bits to nearest even and
    renormalising.  The lemmas below bound the result between the floor and
    the ceiling of [M / 2^shift1], which is all the backoff needs. *)

Lemma iter_pos_nat {A} (f : A -> A) p x :
  iter_pos f p x = Nat.iter (Pos.to_nat p) f x.
Proof.
  revert x; induction p as [p IH|p IH|]; intros x.
  - rewrite Pos2Nat.inj_xI. cbn [iter_pos]. rewrite !IH.
    replace (S (2 * Pos.to_nat p)) with (Pos.to_nat p + (Pos.to_nat p + 1))%nat by lia.
    rewrite !Nat.iter_add. reflexivity.
  - rewrite Pos2Nat.inj_xO. cbn [iter_pos]. rewrite !IH.
    replace (2 * Pos.to_nat p)%nat with (Pos.to_nat p + Pos.to_nat p)%nat by lia.
    now rewrite Nat.iter_add.
  - reflexivity.
Qed.

Lemma shr_1_nonneg m r s :
  0 <= m ->
  shr_1 (Build_shr_record m r s) = Build_shr_record (m / 2) (Z.odd m) (r || s).
Proof.
  intros Hm. rewrite <- Z.div2_div.
  destruct m as [|p|p]; [reflexivity| |lia].
  destruct p; reflexivity.
Qed.

Lemma iter_shr_1 (k : nat) M :
  0 <= M ->
  shr_m (Nat.iter k shr_1 (Build_shr_record M false false)) = M / 2 ^ Z.of_nat k /\
  (shr_r (Nat.iter k shr_1 (Build_shr_record M false false))
   || shr_s (Nat.iter k shr_1 (Build_shr_record M false false))
   = negb (M mod 2 ^ Z.of_nat k =? 0)).
Proof.
  intros HM; induction k as [|k IH].
  - simpl. rewrite Z.div_1_r, Z.mod_1_r. auto.
  - rewrite Nat.iter_succ. destruct IH as [IHm IHrs].
    destruct (Nat.iter k shr_1 _) as [m r s]; cbn [shr_m shr_r shr_s] in *.
    assert (Hp : 0 < 2 ^ Z.of_nat k) by (apply Z.pow_pos_nonneg; lia).
    assert (Hm : 0 <= m) by (subst m; apply Z.div_pos; lia).
    rewrite shr_1_nonneg by assumption; cbn [shr_m shr_r shr_s].
    rewrite Nat2Z.inj_succ, Z.pow_succ_r by lia.
    split.
    + subst m. rewrite Z.div_div by lia. f_equal; lia.
    + rewrite IHrs. rewrite (Z.mul_comm 2), Z.rem_mul_r by lia.
      rewrite <- IHm.
      pose proof (Z.mod_pos_bound M (2 ^ Z.of_nat k) Hp).
      pose proof (Z.mod_pos_bound m 2 ltac:(lia)).
      rewrite Zodd_mod.
      destruct (M mod 2 ^ Z.of_nat k =? 0) eqn:E1;
      destruct (m mod 2 =? 1) eqn:E2; simpl;
      repeat match goal with
      | H : (_ =? _) = true |- _ => apply Z.eqb_eq in H
      | H : (_ =? _) = false |- _ => apply Z.eqb_neq in H
      end; symmetry;
      rewrite ?negb_true_iff, ?negb_false_iff, ?Z.eqb_eq, ?Z.eqb_neq; nia.
Qed.

Lemma digits2_pos_bounds p :
  2 ^ (Zpos (digits2_pos p) - 1) <= Zpos p < 2 ^ Zpos (digits2_pos p).
Proof.
  induction p as [p IH|p IH|]; cbn [digits2_pos].
  - rewrite Pos2Z.inj_succ, (Pos2Z.inj_xI p).
    replace (Z.succ (Zpos (digits2_pos p)) - 1)
      with (Z.succ (Zpos (digits2_pos p) - 1)) by lia.
    rewrite !Z.pow_succ_r by lia. lia.
  - rewrite Pos2Z.inj_succ, (Pos2Z.inj_xO p).
    replace (Z.succ (Zpos (digits2_pos p)) - 1)
      with (Z.succ (Zpos (digits2_pos p) - 1)) by lia.
    rewrite !Z.pow_succ_r by lia. lia.
  - vm_compute; split; [discriminate | reflexivity].
Qed.

Lemma Zdigits2_bounds V :
  0 < V -> 0 < Zdigits2 V /\ 2 ^ (Zdigits2 V - 1) <= V < 2 ^ Zdigits2 V.
Proof.
  destruct V as [|p|p]; try lia. intros _; simpl.
  split; [lia | apply digits2_pos_bounds].
Qed.

Lemma Zdigits2_unique V k :
  2 ^ (k - 1) <= V < 2 ^ k -> 0 < k -> Zdigits2 V = k.
Proof.
  intros HV Hk.
  assert (0 < V) by (pose proof (Z.pow_pos_nonneg 2 (k - 1)); lia).
  destruct (Zdigits2_bounds V) as [Hd HB]; [assumption|].
  assert (Zdigits2 V - 1 < k) by (apply (Z.pow_lt_mono_r_iff 2); lia).
  assert (k - 1 < Zdigits2 V) by (apply (Z.pow_lt_mono_r_iff 2); lia).
  lia.
Qed.

Lemma Zdigits2_le V k : 0 <= V < 2 ^ k -> 0 <= k -> Zdigits2 V <= k.
Proof.
  intros HV Hk. destruct (Z.eq_dec V 0) as [->|Hn]; [simpl; lia|].
  destruct (Zdigits2_bounds V) as [Hd HB]; [lia|].
  assert (Zdigits2 V - 1 < k) by (apply (Z.pow_lt_mono_r_iff 2); lia).
  lia.
Qed.


Lemma fexp64_eq x : fexp64 x = Z.max (x - 53) (-1074).
Proof. reflexivity. Qed.

Lemma shr_exact_spec M E n :
  0 <= M ->
  shr_m (fst (shr (Build_shr_record M false false) E n)) = M / 2 ^ Z.max 0 n /\
  snd (shr (Build_shr_record M false false) E n) = E + Z.max 0 n /\
  (shr_r (fst (shr (Build_shr_record M false false) E n))
   || shr_s (fst (shr (Build_shr_record M false false) E n))
   = negb (M mod 2 ^ Z.max 0 n =? 0)).
Proof.
  intros HM. destruct n as [|p|p]; cbn [shr fst snd shr_m shr_r shr_s].
  - simpl. rewrite Z.div_1_r, Z.mod_1_r, Z.add_0_r. auto.
  - rewrite iter_pos_nat. replace (Z.max 0 (Zpos p)) with (Zpos p) by lia.
    rewrite <- (positive_nat_Z p) at 2 4.
    destruct (iter_shr_1 (Pos.to_nat p) M HM) as [H1 H2].
    rewrite positive_nat_Z in *. auto.
  - replace (Z.max 0 (Zneg p)) with 0 by lia.
    simpl. rewrite Z.div_1_r, Z.mod_1_r, Z.add_0_r. auto.
Qed.

Lemma rne_spec mrs :
  round_nearest_even (shr_m mrs) (loc_of_shr_record mrs) = shr_m mrs \/
  (round_nearest_even (shr_m mrs) (loc_of_shr_record mrs) = shr_m mrs + 1 /\
   shr_r mrs || shr_s mrs = true).
Proof.
  destruct mrs as [m [|] [|]]; simpl; auto.
  destruct (Z.even m); auto.
Qed.

Lemma stage2 m' e' V :
  0 <= m' -> V = m' \/ V = m' + 1 ->
  fexp64 (Zdigits2 m' + e') <= e' -> (m' = 0 -> -1074 <= e') ->
  (Z.max 0 (fexp64 (Zdigits2 V + e') - e') = 0 \/
   Z.max 0 (fexp64 (Zdigits2 V + e') - e') = 1) /\
  V mod 2 ^ Z.max 0 (fexp64 (Zdigits2 V + e') - e') = 0.
Proof.
  intros Hm HV He H0. rewrite fexp64_eq in *.
  destruct HV as [->| ->].
  - replace (Z.max 0 _) with 0 by lia. rewrite Z.mod_1_r; auto.
  - destruct (Z.eq_dec m' 0) as [->|Hn].
    + simpl Zdigits2. specialize (H0 eq_refl).
      replace (Z.max 0 _) with 0 by lia. rewrite Z.mod_1_r; auto.
    + destruct (Zdigits2_bounds m') as [Hd HB]; [lia|].
      destruct (Z.eq_dec (m' + 1) (2 ^ Zdigits2 m')) as [Heq|Hne].
      * assert (HD : Zdigits2 (m' + 1) = Zdigits2 m' + 1).
        { apply Zdigits2_unique; [|lia].
          replace (Zdigits2 m' + 1 - 1) with (Zdigits2 m') by lia.
          rewrite Z.pow_add_r by lia. lia. }
        rewrite HD.
        assert (Hc : Z.max 0 (Z.max (Zdigits2 m' + 1 + e' - 53) (-1074) - e') = 0 \/
                Z.max 0 (Z.max (Zdigits2 m' + 1 + e' - 53) (-1074) - e') = 1) by lia.
        split; [exact Hc|].
        destruct Hc as [-> | ->]; [apply Z.mod_1_r|].
        rewrite Heq. replace (Zdigits2 m') with (Z.succ (Zdigits2 m' - 1)) by lia.
        rewrite Z.pow_succ_r by lia. rewrite Z.mul_comm. apply Z.mod_mul. lia.
      * assert (HD : Zdigits2 (m' + 1) = Zdigits2 m') by (apply Zdigits2_unique; lia).
        rewrite HD. replace (Z.max 0 _) with 0 by lia. rewrite Z.mod_1_r; auto.
Qed.



Lemma trunc_shift m n2 e' :
  0 <= n2 -> 
  (if 0 <=? e' + n2 then m * 2 ^ (e' + n2) else m / 2 ^ (- (e' + n2)))
  = tr (m * 2 ^ n2) e'.
Proof.
  intros Hn. unfold tr.
  destruct (0 <=? e') eqn:E1; destruct (0 <=? e' + n2) eqn:E2;
    rewrite ?Z.leb_le, ?Z.leb_gt in *; try lia.
  - rewrite (Z.add_comm e'), Z.pow_add_r by lia. ring.
  - assert (H : 2 ^ n2 = 2 ^ (e' + n2) * 2 ^ (- e'))
      by (rewrite <- Z.pow_add_r by lia; f_equal; lia).
    rewrite H, Z.mul_assoc, Z.div_mul; [reflexivity|].
    apply Z.pow_nonzero; lia.
  - assert (H : 2 ^ (- e') = 2 ^ (- (e' + n2)) * 2 ^ n2)
      by (rewrite <- Z.pow_add_r by lia; f_equal; lia).
    rewrite H, Z.div_mul_cancel_r; [reflexivity| |]; apply Z.pow_nonzero; lia.
Qed.

Lemma stage1_canonical M E :
  0 < M ->
  fexp64 (Zdigits2 (M / 2 ^ shift1 M E) + (E + shift1 M E)) <= E + shift1 M E /\
  (M / 2 ^ shift1 M E = 0 -> -1074 <= E + shift1 M E).
Proof.
  intros HM. destruct (Zdigits2_bounds M HM) as [Hd HB].
  unfold shift1. rewrite !fexp64_eq.
  destruct (Z.max_spec 0 (Z.max (Zdigits2 M + E - 53) (-1074) - E))
    as [[Hlt ->]|[Hge ->]].
  - (* a real shift *)
    set (n := Z.max (Zdigits2 M + E - 53) (-1074) - E) in *.
    split; [|lia].
    assert (Hdig : Zdigits2 (M / 2 ^ n) <= Z.max 0 (Zdigits2 M - n)).
    { destruct (Z.le_gt_cases n (Zdigits2 M)) as [Hle|Hgt].
      - apply Z.le_trans with (Zdigits2 M - n); [|lia].
        apply Zdigits2_le; [|lia]. split; [apply Z.div_pos; [lia|apply Z.pow_pos_nonneg; lia]|].
        apply Z.div_lt_upper_bound; [apply Z.pow_pos_nonneg; lia|].
        rewrite <- Z.pow_add_r by lia. replace (n + (Zdigits2 M - n)) with (Zdigits2 M) by lia.
        lia.
      - assert (2 ^ Zdigits2 M <= 2 ^ n) by (apply Z.pow_le_mono_r; lia).
        rewrite Z.div_small by lia. simpl; lia. }
    lia.
  - rewrite Z.div_1_r. split; [lia|lia].
Qed.

Lemma bra_spec s M E :
  exists V,
    (V = Zpos M / 2 ^ shift1 (Zpos M) E \/
     (V = Zpos M / 2 ^ shift1 (Zpos M) E + 1 /\
      Zpos M mod 2 ^ shift1 (Zpos M) E <> 0)) /\
    ((V = 0 /\
      binary_round_aux prec64 emax64 s (Zpos M) E loc_Exact = S754_zero s) \/
     (exists m'' n2,
        0 <= n2 /\ V = Zpos m'' * 2 ^ n2 /\
        binary_round_aux prec64 emax64 s (Zpos M) E loc_Exact
        = S754_finite s m'' (E + shift1 (Zpos M) E + n2)) \/
     (binary_round_aux prec64 emax64 s (Zpos M) E loc_Exact = S754_infinity s /\
      971 < E + shift1 (Zpos M) E + 1)).
Proof.
  assert (HM : 0 < Zpos M) by lia.
  assert (Hp : 0 < 2 ^ shift1 (Zpos M) E)
    by (apply Z.pow_pos_nonneg; unfold shift1; lia).
  unfold binary_round_aux, shr_fexp.
  cbn [shr_record_of_loc].
  change (fexp prec64 emax64) with fexp64.
  destruct (shr_exact_spec (Zpos M) E (fexp64 (Zdigits2 (Zpos M) + E) - E))
    as (H1m & H1e & H1rs); [lia|].
  fold (shift1 (Zpos M) E) in H1m, H1e, H1rs.
  destruct (shr _ E _) as [mrs' e']; cbn [fst snd] in *.
  set (V := round_nearest_even (shr_m mrs') (loc_of_shr_record mrs')).
  assert (Hm' : 0 <= shr_m mrs') by (rewrite H1m; apply Z.div_pos; lia).
  assert (HV : V = shr_m mrs' \/ (V = shr_m mrs' + 1 /\
                                  Zpos M mod 2 ^ shift1 (Zpos M) E <> 0)).
  { destruct (rne_spec mrs') as [H|[H Hrs]]; [left; exact H|right; split; [exact H|]].
    rewrite H1rs in Hrs. apply negb_true_iff, Z.eqb_neq in Hrs. exact Hrs. }
  assert (HV0 : 0 <= V) by lia.
  destruct (stage1_canonical (Zpos M) E HM) as [Hc1 Hc2].
  rewrite <- H1m, <- H1e in Hc1, Hc2.
  destruct (stage2 (shr_m mrs') e' V Hm' ltac:(lia) Hc1 Hc2) as [Hn2 Hmod].
  destruct (shr_exact_spec V e' (fexp64 (Zdigits2 V + e') - e') HV0)
    as (H2m & H2e & _).
  set (n2 := Z.max 0 (fexp64 (Zdigits2 V + e') - e')) in *.
  destruct (shr _ e' _) as [mrs'' e'']; cbn [fst snd] in *.
  assert (Hn2' : 0 <= n2) by lia.
  assert (Hp2 : 0 < 2 ^ n2) by (apply Z.pow_pos_nonneg; lia).
  assert (HVm : V = shr_m mrs'' * 2 ^ n2).
  { rewrite H2m. rewrite Z.mul_comm. apply Z.div_exact; lia. }
  exists V. split; [rewrite <- H1m; exact HV|].
  destruct (shr_m mrs'') as [|m|m] eqn:Em.
  - left. split; [lia | reflexivity].
  - right. change (Z.sub emax64 prec64) with 971.
    destruct (e'' <=? 971) eqn:Ee.
    + left. exists m, n2. rewrite <- H1e, <- H2e. auto.
    + right. split; [reflexivity|]. apply Z.leb_gt in Ee. lia.
  - exfalso. assert (0 <= V / 2 ^ n2) by (apply Z.div_pos; lia). lia.
Qed.

Lemma SFtrunc_finite s m e' n2 :
  0 <= n2 ->
  SFtrunc (S754_finite s m (e' + n2))
  = Some (if s then - tr (Zpos m * 2 ^ n2) e' else tr (Zpos m * 2 ^ n2) e').
Proof. intros Hn. unfold SFtrunc. now rewrite trunc_shift. Qed.


Lemma upper_Z M E V :
  0 < M ->
  V = M / 2 ^ shift1 M E \/
  (V = M / 2 ^ shift1 M E + 1 /\ M mod 2 ^ shift1 M E <> 0) ->
  M * pexp E <= MaxExact * nexp E ->
  tr V (E + shift1 M E) <= MaxExact /\ E + shift1 M E + 1 <= 971.
Proof.
  intros HM HV Hx.
  destruct (Zdigits2_bounds M HM) as [Hd HB].
  assert (Hpn : 0 < 2 ^ shift1 M E) by (apply Z.pow_pos_nonneg; unfold shift1; lia).
  pose proof (Z.div_mod M (2 ^ shift1 M E) ltac:(lia)) as Hdm.
  pose proof (Z.mod_pos_bound M (2 ^ shift1 M E) Hpn) as Hmb.
  assert (Hceil : (V - 1) * 2 ^ shift1 M E < M) by (destruct HV as [->|[-> ?]]; nia).
  assert (HV0 : 0 <= V).
  { assert (0 <= M / 2 ^ shift1 M E) by (apply Z.div_pos; lia). lia. }
  assert (HdE : Zdigits2 M + E <= 63).
  { unfold pexp, nexp, MaxExact in Hx.
    destruct (Z.le_gt_cases 0 E) as [HE|HE].
    - replace (Z.max E 0) with E in Hx by lia.
      replace (Z.max (- E) 0) with 0 in Hx by lia.
      assert (2 ^ (Zdigits2 M - 1 + E) < 2 ^ 63).
      { rewrite Z.pow_add_r by lia.
        assert (0 < 2 ^ E) by (apply Z.pow_pos_nonneg; lia).
        change (2 ^ 0) with 1 in Hx. nia. }
      assert (Zdigits2 M - 1 + E < 63) by (apply (Z.pow_lt_mono_r_iff 2); lia).
      lia.
    - replace (Z.max E 0) with 0 in Hx by lia.
      replace (Z.max (- E) 0) with (- E) in Hx by lia.
      assert (2 ^ (Zdigits2 M - 1) < 2 ^ (63 + - E)).
      { rewrite (Z.pow_add_r 2 63) by lia.
        assert (0 < 2 ^ (- E)) by (apply Z.pow_pos_nonneg; lia).
        change (2 ^ 0) with 1 in Hx. nia. }
      assert (Zdigits2 M - 1 < 63 + - E) by (apply (Z.pow_lt_mono_r_iff 2); lia).
      lia. }
  split; [|unfold shift1; rewrite fexp64_eq; lia].
  unfold tr, pexp, nexp in *.
  destruct (Z.eq_dec (shift1 M E) 0) as [Hn0|Hn0].
  - (* no shift: the value is exact *)
    rewrite Hn0 in *. change (2 ^ 0) with 1 in *. rewrite Z.add_0_r.
    assert (V = M) by (rewrite Z.div_1_r, Z.mod_1_r in HV; lia). subst V.
    destruct (0 <=? E) eqn:HE; rewrite ?Z.leb_le, ?Z.leb_gt in HE.
    + replace (Z.max E 0) with E in Hx by lia.
      replace (Z.max (- E) 0) with 0 in Hx by lia.
      change (2 ^ 0) with 1 in Hx. lia.
    + replace (Z.max E 0) with 0 in Hx by lia.
      replace (Z.max (- E) 0) with (- E) in Hx by lia.
      change (2 ^ 0) with 1 in Hx.
      apply Z.div_le_upper_bound; [apply Z.pow_pos_nonneg; lia | lia].
  - (* a shift by [n > 0] to the exponent [E' <= 10] *)
    set (n := shift1 M E) in *.
    assert (Hn : 0 < n) by (unfold n, shift1 in *; lia).
    assert (HE' : E + n = Z.max (Zdigits2 M + E - 53) (-1074))
      by (unfold n, shift1 in *; rewrite fexp64_eq in *; lia).
    assert (HE10 : E + n <= 10) by lia.
    destruct (0 <=? E + n) eqn:HEn; rewrite ?Z.leb_le, ?Z.leb_gt in HEn.
    + (* MaxExact is a multiple of 2^(E+n) *)
      set (B1 := (2 ^ 53 - 1) * 2 ^ (10 - (E + n))).
      assert (HB1 : MaxExact = B1 * 2 ^ (E + n)).
      { unfold B1. rewrite <- Z.mul_assoc, <- Z.pow_add_r by lia.
        replace (10 - (E + n) + (E + n)) with 10 by lia. reflexivity. }
      assert (HM1 : M <= B1 * 2 ^ n).
      { unfold MaxExact in HB1. fold MaxExact in HB1.
        destruct (Z.le_gt_cases 0 E) as [HE|HE].
        - replace (Z.max E 0) with E in Hx by lia.
          replace (Z.max (- E) 0) with 0 in Hx by lia.
          change (2 ^ 0) with 1 in Hx.
          rewrite HB1, (Z.add_comm E n), Z.pow_add_r in Hx by lia.
          assert (0 < 2 ^ E) by (apply Z.pow_pos_nonneg; lia). nia.
        - replace (Z.max E 0) with 0 in Hx by lia.
          replace (Z.max (- E) 0) with (- E) in Hx by lia.
          change (2 ^ 0) with 1 in Hx.
          rewrite HB1 in Hx. rewrite <- Z.mul_assoc, <- Z.pow_add_r in Hx by lia.
          replace (E + n + - E) with n in Hx by lia. lia. }
      rewrite HB1. apply Z.mul_le_mono_nonneg_r; [apply Z.pow_nonneg; lia|]. nia.
    + assert (HE : E < 0) by lia.
      replace (Z.max E 0) with 0 in Hx by lia.
      replace (Z.max (- E) 0) with (- E) in Hx by lia.
      change (2 ^ 0) with 1 in Hx.
      assert (Hs : 2 ^ (- E) = 2 ^ (- (E + n)) * 2 ^ n)
        by (rewrite <- Z.pow_add_r by lia; f_equal; lia).
      assert (0 < 2 ^ (- (E + n))) by (apply Z.pow_pos_nonneg; lia).
      apply Z.div_le_upper_bound; [lia|].
      rewrite Hs in Hx. nia.
Qed.

Lemma lower_Z M E V c :
  0 < M ->
  V = M / 2 ^ shift1 M E \/
  (V = M / 2 ^ shift1 M E + 1 /\ M mod 2 ^ shift1 M E <> 0) ->
  0 <= c <= 2 ^ 53 ->
  c * nexp E <= M * pexp E ->
  c <= tr V (E + shift1 M E).
Proof.
  intros HM HV Hc Hx.
  destruct (Zdigits2_bounds M HM) as [Hd HB].
  assert (Hpn : 0 < 2 ^ shift1 M E) by (apply Z.pow_pos_nonneg; unfold shift1; lia).
  assert (Hfloor : M / 2 ^ shift1 M E <= V) by lia.
  unfold tr, pexp, nexp in *.
  destruct (Z.eq_dec (shift1 M E) 0) as [Hn0|Hn0].
  - rewrite Hn0 in *. change (2 ^ 0) with 1 in *. rewrite Z.add_0_r.
    assert (V = M) by (rewrite Z.div_1_r, Z.mod_1_r in HV; lia). subst V.
    destruct (0 <=? E) eqn:HE; rewrite ?Z.leb_le, ?Z.leb_gt in HE.
    + replace (Z.max E 0) with E in Hx by lia.
      replace (Z.max (- E) 0) with 0 in Hx by lia.
      change (2 ^ 0) with 1 in Hx. lia.
    + replace (Z.max E 0) with 0 in Hx by lia.
      replace (Z.max (- E) 0) with (- E) in Hx by lia.
      change (2 ^ 0) with 1 in Hx.
      apply Z.div_le_lower_bound; [apply Z.pow_pos_nonneg; lia | lia].
  - set (n := shift1 M E) in *.
    assert (Hn : 0 < n) by (unfold n, shift1 in *; lia).
    assert (HE' : E + n = Z.max (Zdigits2 M + E - 53) (-1074))
      by (unfold n, shift1 in *; rewrite fexp64_eq in *; lia).
    destruct (Z.lt_ge_cases 0 (E + n)) as [Hpos|Hnp].
    + (* the result is at least 2^53 *)
      assert (Hnd : n = Zdigits2 M - 53) by lia.
      assert (H52 : 2 ^ 52 <= M / 2 ^ n).
      { apply Z.div_le_lower_bound; [lia|].
        rewrite <- Z.pow_add_r by lia.
        replace (n + 52) with (Zdigits2 M - 1) by lia. lia. }
      replace (0 <=? E + n) with true by (symmetry; apply Z.leb_le; lia).
      assert (2 ^ 1 <= 2 ^ (E + n)) by (apply Z.pow_le_mono_r; lia).
      change (2 ^ 1) with 2 in *.
      change (2 ^ 53) with (2 ^ 52 * 2) in Hc. nia.
    + assert (HE : E < 0) by lia.
      replace (Z.max E 0) with 0 in Hx by lia.
      replace (Z.max (- E) 0) with (- E) in Hx by lia.
      change (2 ^ 0) with 1 in Hx.
      assert (Hs : 2 ^ (- E) = 2 ^ (- (E + n)) * 2 ^ n)
        by (rewrite <- Z.pow_add_r by lia; f_equal; lia).
      assert (Hq : 0 < 2 ^ (- (E + n))) by (apply Z.pow_pos_nonneg; lia).
      assert (HcV : c * 2 ^ (- (E + n)) <= V).
      { apply Z.le_trans with (M / 2 ^ n); [|lia].
        apply Z.div_le_lower_bound; [lia|]. rewrite Hs in Hx. lia. }
      destruct (0 <=? E + n) eqn:HEn; rewrite ?Z.leb_le, ?Z.leb_gt in HEn.
      * replace (E + n) with 0 in * by lia. change (2 ^ (- 0)) with 1 in *.
        change (2 ^ 0) with 1. lia.
      * apply Z.div_le_lower_bound; lia.
Qed.

Lemma tr_nonneg V E : 0 <= V -> 0 <= tr V E.
Proof.
  intros HV; unfold tr. destruct (0 <=? E) eqn:HE.
  - apply Z.mul_nonneg_nonneg; [lia | apply Z.pow_nonneg; lia].
  - apply Z.leb_gt in HE.
    apply Z.div_pos; [lia | apply Z.pow_pos_nonneg; lia].
Qed.

Lemma Pos_iter_xO p k : Zpos (Pos.iter xO p k) = Zpos p * 2 ^ Zpos k.
Proof.
  induction k as [|k IH] using Pos.peano_ind.
  - simpl. lia.
  - rewrite Pos.iter_succ, Pos2Z.inj_succ, Z.pow_succ_r by lia.
    rewrite (Pos2Z.inj_xO (Pos.iter xO p k)), IH. ring.
Qed.

(** [float64(c)] is exact for [0 < c <= 2^53]. *)
Lemma float64_of_int64_exact c :
  0 < c <= 2 ^ 53 ->
  exists mc ec,
    float64_of_int64 c = S754_finite false mc ec /\
    Zpos mc * pexp ec = c * nexp ec.
Proof.
  intros Hc. destruct c as [|p|p]; try lia.
  unfold float64_of_int64, binary_normalize, binary_round.
  change (fexp prec64 emax64) with fexp64.
  destruct (Zdigits2_bounds (Zpos p) ltac:(lia)) as [Hd HB].
  change (Zdigits2 (Zpos p)) with (Zpos (digits2_pos p)) in *.
  set (d := Zpos (digits2_pos p)) in *.
  assert (Hd54 : d <= 54).
  { assert (d - 1 < 54) by (apply (Z.pow_lt_mono_r_iff 2); lia). lia. }
  assert (Hmz : exists mz ez,
             shl_align p 0 (fexp64 (d + 0)) = (mz, ez) /\ ez <= 0 /\
             Zpos mz = Zpos p * 2 ^ (- ez) /\
             shift1 (Zpos mz) ez = Z.max 0 (d - 53) /\ (d <= 53 \/ ez = 0)).
  { unfold shl_align. rewrite fexp64_eq, Z.add_0_r, Z.sub_0_r.
    replace (Z.max (d - 53) (-1074)) with (d - 53) by lia.
    destruct (d - 53) as [|k|k] eqn:Ek.
    - exists p, 0. repeat split; try lia.
      unfold shift1. rewrite fexp64_eq. change (Zdigits2 (Zpos p)) with d. lia.
    - exists p, 0. repeat split; try lia.
      unfold shift1. rewrite fexp64_eq. change (Zdigits2 (Zpos p)) with d. lia.
    - exists (Pos.iter xO p k), (Zneg k).
      pose proof (Pos_iter_xO p k) as HI.
      assert (HD : Zdigits2 (Zpos (Pos.iter xO p k)) = 53).
      { apply Zdigits2_unique; [|lia]. rewrite HI.
        replace (2 ^ (53 - 1)) with (2 ^ (d - 1) * 2 ^ Zpos k)
          by (rewrite <- Z.pow_add_r by lia; f_equal; lia).
        replace (2 ^ 53) with (2 ^ d * 2 ^ Zpos k)
          by (rewrite <- Z.pow_add_r by lia; f_equal; lia).
        assert (0 < 2 ^ Zpos k) by (apply Z.pow_pos_nonneg; lia). nia. }
      change (- Zneg k) with (Zpos k).
      repeat split; try lia.
      unfold shift1. rewrite fexp64_eq, HD. lia. }
  destruct Hmz as (mz & ez & -> & Hez & Hmz & Hsh & Hcase).
  destruct (bra_spec false mz ez) as (V & HV & HR).
  rewrite Hsh in *.
  assert (Hexact : Zpos mz mod 2 ^ Z.max 0 (d - 53) = 0).
  { destruct (Z.le_gt_cases d 53) as [Hle|Hgt].
    - replace (Z.max 0 (d - 53)) with 0 by lia. apply Z.mod_1_r.
    - assert (d = 54) by lia. assert (ez = 0) by lia. subst ez.
      replace (Z.max 0 (d - 53)) with 1 by lia.
      rewrite Hmz. change (2 ^ (- 0)) with 1. rewrite Z.mul_1_r.
      assert (Zpos p = 2 ^ 53) by (replace (d - 1) with 53 in HB by lia; lia).
      replace (Zpos p) with (2 ^ 53) by lia. reflexivity. }
  assert (HVe : V * 2 ^ Z.max 0 (d - 53) = Zpos mz).
  { destruct HV as [->|[_ ?]]; [|contradiction].
    rewrite Z.mul_comm. symmetry. apply Z.div_exact; [|assumption].
    apply Z.pow_nonzero; lia. }
  set (n := Z.max 0 (d - 53)) in *.
  assert (Hn : 0 <= n <= 1) by lia.
  destruct HR as [[HV0 _]|[(m'' & n2 & Hn2 & HVm & ->)|[_ Hinf]]]; [lia| |lia].
  exists m'', (ez + n + n2). split; [reflexivity|].
  unfold pexp, nexp.
  assert (Hall : Zpos m'' * 2 ^ (n2 + n) = Zpos p * 2 ^ (- ez)).
  { rewrite Z.pow_add_r by lia. rewrite Z.mul_assoc, <- HVm, HVe. exact Hmz. }
  destruct (Z.le_gt_cases 0 (ez + n + n2)) as [He|He].
  - replace (Z.max (ez + n + n2) 0) with (ez + n + n2) by lia.
    replace (Z.max (- (ez + n + n2)) 0) with 0 by lia.
    change (2 ^ 0) with 1. rewrite Z.mul_1_r.
    assert (Hs : 2 ^ (n2 + n) = 2 ^ (ez + n + n2) * 2 ^ (- ez))
      by (rewrite <- Z.pow_add_r by lia; f_equal; lia).
    rewrite Hs, Z.mul_assoc in Hall.
    apply Z.mul_cancel_r in Hall; [exact Hall|apply Z.pow_nonzero; lia].
  - replace (Z.max (ez + n + n2) 0) with 0 by lia.
    replace (Z.max (- (ez + n + n2)) 0) with (- (ez + n + n2)) by lia.
    change (2 ^ 0) with 1. rewrite Z.mul_1_r.
    assert (Hs : 2 ^ (- ez) = 2 ^ (- (ez + n + n2)) * 2 ^ (n2 + n))
      by (rewrite <- Z.pow_add_r by lia; f_equal; lia).
    rewrite Hs, Z.mul_assoc in Hall.
    apply Z.mul_cancel_r in Hall; [exact Hall|apply Z.pow_nonzero; lia].
Qed.

(** From rationals to scaled integers. *)

Lemma Qpow2_split E : (2 ^ E * inject_Z (nexp E) == inject_Z (pexp E))%Q.
Proof.
  unfold nexp, pexp. destruct (Z.le_gt_cases 0 E) as [HE|HE].
  - replace (Z.max E 0) with E by lia. replace (Z.max (- E) 0) with 0 by lia.
    rewrite (Zpower_Qpower 2 E) by lia. change (inject_Z (2 ^ 0)) with 1%Q.
    change (inject_Z 2) with 2%Q. apply Qmult_1_r.
  - replace (Z.max E 0) with 0 by lia.
    replace (Z.max (- E) 0) with (- E) by lia.
    rewrite (Zpower_Qpower 2 (- E)) by lia. change (inject_Z (2 ^ 0)) with 1%Q.
    change (inject_Z 2) with 2%Q.
    rewrite Qpower_opp. apply Qmult_inv_r.
    apply Qpower_not_0. discriminate.
Qed.

Lemma nexp_pos E : 0 < nexp E.
Proof. unfold nexp; apply Z.pow_pos_nonneg; lia. Qed.

Lemma pexp_pos E : 0 < pexp E.
Proof. unfold pexp; apply Z.pow_pos_nonneg; lia. Qed.

Lemma Qnexp_pos E : (0 < inject_Z (nexp E))%Q.
Proof. change 0%Q with (inject_Z 0). rewrite <- Zlt_Qlt. apply nexp_pos. Qed.

Lemma Qval_le M E B :
  (inject_Z M * 2 ^ E <= inject_Z B)%Q -> M * pexp E <= B * nexp E.
Proof.
  intros H. rewrite Zle_Qle, !inject_Z_mult, <- Qpow2_split.
  rewrite Qmult_assoc. apply Qmult_le_compat_r; [exact H|].
  apply Qlt_le_weak, Qnexp_pos.
Qed.

Lemma Qval_ge M E c :
  (inject_Z c <= inject_Z M * 2 ^ E)%Q -> c * nexp E <= M * pexp E.
Proof.
  intros H. rewrite Zle_Qle, !inject_Z_mult, <- Qpow2_split.
  rewrite Qmult_assoc. apply Qmult_le_compat_r; [exact H|].
  apply Qlt_le_weak, Qnexp_pos.
Qed.

Lemma Qval_exact m e c :
  m * pexp e = c * nexp e -> (inject_Z m * 2 ^ e == inject_Z c)%Q.
Proof.
  intros H.
  assert (Hn : ~ (inject_Z (nexp e) == 0)%Q).
  { intros Hz. pose proof (Qnexp_pos e) as Hp. rewrite Hz in Hp.
    apply (Qlt_irrefl 0), Hp. }
  apply (Qmult_inj_r _ _ (inject_Z (nexp e)) Hn).
  rewrite <- Qmult_assoc, Qpow2_split, <- !inject_Z_mult, H. reflexivity.
Qed.

Lemma Qval_mul m1 e1 m2 e2 :
  (inject_Z (m1 * m2) * 2 ^ (e1 + e2)
   == (inject_Z m1 * 2 ^ e1) * (inject_Z m2 * 2 ^ e2))%Q.
Proof.
  rewrite inject_Z_mult, Qpower_plus by discriminate.
  generalize (2 ^ e1)%Q (2 ^ e2)%Q; intros x y. ring.
Qed.

Lemma tr_0 E : tr 0 E = 0.
Proof. unfold tr. destruct (0 <=? E); [apply Z.mul_0_l | apply Zdiv_0_l]. Qed.

Lemma Duration_of_float64_in_range conv f z :
  SFtrunc f = Some z -> MinInt64 <= z <= MaxInt64 ->
  Duration_of_float64 conv f = z.
Proof.
  intros Hf Hz. unfold Duration_of_float64. rewrite Hf.
  replace (MinInt64 <=? z) with true by (symmetry; apply Z.leb_le; lia).
  replace (z <=? MaxInt64) with true by (symmetry; apply Z.leb_le; lia).
  reflexivity.
Qed.

Lemma grow_bounds conv f c :
  0 <= c <= 2 ^ 53 -> is_finite f = true -> (0 <= SF2Q f)%Q ->
  (inject_Z c * SF2Q f <= inject_Z MaxExact)%Q ->
  0 <= grow conv f c <= MaxExact /\
  ((1 <= SF2Q f)%Q -> c <= grow conv f c).
Proof.
  intros Hc Hfin Hf0 Hub.
  destruct (Z.eq_dec c 0) as [->|Hc0].
  { rewrite grow_zero by assumption. unfold MaxExact. split; lia. }
  destruct (float64_of_int64_exact c) as (mc & ec & Hfc & Hrep); [lia|].
  unfold grow. rewrite Hfc.
  destruct f as [s| | |s mf ef]; try discriminate.
  - (* factor is a zero *)
    unfold MaxExact. cbn. split; [lia|].
    intros H. unfold Qle in H; simpl in H; lia.
  - destruct s.
    + (* a negative factor is excluded *)
      exfalso. unfold SF2Q in Hf0.
      apply (Qval_ge (Zneg mf) ef 0) in Hf0.
      pose proof (pexp_pos ef). nia.
    + unfold SF2Q in *. unfold fmul, SFmul. cbn [xorb].
      set (M := Pos.mul mc mf). set (E := ec + ef).
      assert (Hx : (inject_Z (Zpos M) * 2 ^ E
                    == inject_Z c * (inject_Z (Zpos mf) * 2 ^ ef))%Q).
      { unfold M, E. rewrite Pos2Z.inj_mul, Qval_mul.
        now rewrite (Qval_exact _ _ _ Hrep). }
      destruct (bra_spec false M E) as (V & HV & HR).
      assert (HV0 : 0 <= V).
      { assert (0 <= Zpos M / 2 ^ shift1 (Zpos M) E)
          by (apply Z.div_pos; [lia|apply Z.pow_pos_nonneg; unfold shift1; lia]).
        lia. }
      destruct (upper_Z (Zpos M) E V ltac:(lia) HV) as [Hup Hexp].
      { apply Qval_le. now rewrite Hx. }
      pose proof (tr_nonneg V (E + shift1 (Zpos M) E) HV0) as Hlo.
      assert (Hg : Duration_of_float64 conv
                     (binary_round_aux prec64 emax64 false (Zpos M) E loc_Exact)
                   = tr V (E + shift1 (Zpos M) E)).
      { destruct HR as [[HVz ->]|[(m'' & n2 & Hn2 & HVm & ->)|[_ Hinf]]].
        - subst V. now rewrite tr_0.
        - apply Duration_of_float64_in_range.
          + rewrite SFtrunc_finite by assumption. now rewrite <- HVm.
          + unfold MinInt64, MaxInt64, MaxExact in *. lia.
        - lia. }
      rewrite Hg. split; [lia|].
      intros H1. apply (lower_Z (Zpos M) E V c); try assumption; try lia.
      apply Qval_ge. rewrite Hx.
      rewrite <- (Qmult_1_r (inject_Z c)) at 1.
      apply Qmult_le_l; [|exact H1].
      change 0%Q with (inject_Z 0). rewrite <- Zlt_Qlt. lia.
Qed.

(** ** The unjittered sequence *)

Lemma SF2Q_ge1_finite f :
  (1 <= SF2Q f)%Q -> is_finite f = true /\ (0 <= SF2Q f)%Q.
Proof.
  intros H. split.
  - destruct f; try reflexivity; unfold Qle in H; simpl in H; lia.
  - apply Qle_trans with (2 := H). unfold Qle; simpl; lia.
Qed.

Lemma scale_le c m q B :
  c <= m -> (0 <= q)%Q ->
  (inject_Z m * q <= inject_Z B)%Q -> (inject_Z c * q <= inject_Z B)%Q.
Proof.
  intros Hc Hq Hm. apply Qle_trans with (2 := Hm).
  apply Qmult_le_compat_r; [|exact Hq]. now rewrite <- Zle_Qle.
Qed.

Lemma forallb_geometric conv f i m n :
  forallb (fun k => geometric conv f i k <=? m) (seq 0 (S n)) = true <->
  forall k, (k <= n)%nat -> geometric conv f i k <= m.
Proof.
  rewrite forallb_forall; split; intros H k Hk.
  - apply Z.leb_le, H, in_seq; lia.
  - apply Z.leb_le, H. apply in_seq in Hk; lia.
Qed.

Lemma clamped_geometric_S conv f i m n :
  clamped_geometric conv f i m (S n) =
  if forallb (fun k => geometric conv f i k <=? m) (seq 0 (S n))
  then (if geometric conv f i (S n) <=? m
        then geometric conv f i (S n) else m)
  else m.
Proof.
  unfold clamped_geometric. rewrite (seq_S (S n)), forallb_app.
  cbn [forallb Nat.add]. rewrite andb_true_r.
  now destruct (forallb _ (seq 0 (S n))).
Qed.

Section Unjittered.

Variable conv : float64 -> Z.
Variables (i m : Duration) (f : float64).
Hypothesis Hi : 0 <= i <= m.
Hypothesis Hm : m <= 2 ^ 53.
Hypothesis Hf : (1 <= SF2Q f)%Q.
Hypothesis Hmf : (inject_Z m * SF2Q f <= inject_Z MaxExact)%Q.

Lemma grow_below c :
  0 <= c <= m -> c <= grow conv f c /\ 0 <= grow conv f c.
Proof.
  intros Hc. destruct (SF2Q_ge1_finite f Hf) as [Hfin Hq].
  destruct (grow_bounds conv f c) as [[H0 _] HL]; try assumption; try lia.
  - now apply scale_le with m.
  - split; [now apply HL | exact H0].
Qed.

Lemma geometric_grows n :
  (forall k, (k <= n)%nat -> geometric conv f i k <= m) ->
  0 <= geometric conv f i n /\
  geometric conv f i n <= geometric conv f i (S n).
Proof.
  induction n as [|n IH]; intros Hall.
  - simpl. destruct (grow_below i); lia.
  - destruct IH as [IH0 IH1]; [intros k Hk; apply Hall; lia|].
    assert (H1 : geometric conv f i (S n) <= m) by (apply Hall; lia).
    split; [lia|].
    change (geometric conv f i (S (S n)))
      with (grow conv f (geometric conv f i (S n))).
    destruct (grow_below (geometric conv f i (S n))); lia.
Qed.

Lemma clamped_geometric_0 : clamped_geometric conv f i m 0 = i.
Proof.
  unfold clamped_geometric; simpl.
  destruct (i <=? m) eqn:E; [reflexivity|]. apply Z.leb_gt in E; lia.
Qed.

Lemma clamped_geometric_mono n :
  clamped_geometric conv f i m n <= clamped_geometric conv f i m (S n).
Proof.
  rewrite clamped_geometric_S. unfold clamped_geometric.
  destruct (forallb _ (seq 0 (S n))) eqn:Eall; [|lia].
  pose proof (proj1 (forallb_geometric conv f i m n) Eall) as Hall.
  destruct (geometric_grows n Hall) as [_ Hg].
  destruct (geometric conv f i (S n) <=? m) eqn:E; [lia|].
  apply Hall; lia.
Qed.

Lemma advance_clamped j n :
  advance conv (mkBackoff i f m j (clamped_geometric conv f i m n) true)
  = mkBackoff i f m j (clamped_geometric conv f i m (S n)) true.
Proof.
  unfold advance; cbn [initialized negb factor current max initial withJitter].
  f_equal. rewrite clamped_geometric_S. unfold clamped_geometric.
  destruct (forallb _ (seq 0 (S n))) eqn:Eall.
  - change (grow conv f (geometric conv f i n))
      with (geometric conv f i (S n)).
    rewrite Z.gtb_ltb, Z.ltb_antisym.
    now destruct (geometric conv f i (S n) <=? m).
  - destruct (grow_below m) as [Hg _]; [lia|].
    destruct (grow conv f m >? m) eqn:E; [reflexivity|].
    rewrite Z.gtb_ltb in E. apply Z.ltb_ge in E. lia.
Qed.

Lemma outputs_clamped n draws :
  outputs conv (mkBackoff i f m false (clamped_geometric conv f i m n) true)
          draws
  = map (fun k => Ok (clamped_geometric conv f i m k))
        (seq (S n) (length draws)).
Proof.
  revert n; induction draws as [|r draws IH]; intros n; [reflexivity|].
  rewrite outputs_cons, snd_Next, advance_clamped, IH. reflexivity.
Qed.

End Unjittered.

(** C1 (as amended): with jitter disabled, [factor >= 1],
    [0 <= initial <= max <= 2^53] and [max * factor <= 2^63 - 1024], the
    values returned by successive [Next] calls are non-decreasing; they are
    [initial, initial*factor, initial*factor^2, ...] (each product converted
    back to a duration) until one of these exceeds [max], and exactly [max]
    from then on. *)
Theorem unjittered_sequence conv i f m draws :
  0 <= i <= m -> m <= 2 ^ 53 -> (1 <= SF2Q f)%Q ->
  (inject_Z m * SF2Q f <= inject_Z MaxExact)%Q ->
  outputs conv (New i f m [WithJitter false]) draws
  = map (fun n => Ok (clamped_geometric conv f i m n))
        (seq 0 (length draws)) /\
  (forall n,
     clamped_geometric conv f i m n <= clamped_geometric conv f i m (S n)) /\
  (forall n,
     (forall k, (k <= n)%nat -> geometric conv f i k <= m) ->
     clamped_geometric conv f i m n = geometric conv f i n) /\
  (forall n k,
     geometric conv f i n > m -> (n <= k)%nat ->
     clamped_geometric conv f i m k = m).
Proof.
  intros Hi Hm Hf Hmf. repeat split.
  - destruct draws as [|r draws]; [reflexivity|].
    rewrite outputs_cons, snd_Next.
    change (advance conv (New i f m [WithJitter false]))
      with (mkBackoff i f m false i true).
    pose proof (clamped_geometric_0 conv i m f Hi) as H0.
    replace (mkBackoff i f m false i true)
      with (mkBackoff i f m false (clamped_geometric conv f i m 0) true)
      by (now rewrite H0).
    rewrite (outputs_clamped conv i m f Hi Hm Hf Hmf).
    reflexivity.
  - intros n. now apply clamped_geometric_mono.
  - intros n Hall. unfold clamped_geometric.
    now rewrite (proj2 (forallb_geometric conv f i m n) Hall).
  - intros n k Hn Hk. unfold clamped_geometric.
    destruct (forallb _ (seq 0 (S k))) eqn:E; [|reflexivity].
    pose proof (proj1 (forallb_geometric conv f i m k) E n Hk). lia.
Qed.

Lemma unjittered_sequence_witness :
  outputs amd64_conv (New (100 * Millisecond) f64_2 Second [WithJitter false])
          [0; 0; 0; 0; 0; 0]
  = map (fun n => Ok (clamped_geometric amd64_conv f64_2
                        (100 * Millisecond) Second n))
        (seq 0 6).
Proof.
  apply (unjittered_sequence amd64_conv (100 * Millisecond) f64_2 Second
           [0; 0; 0; 0; 0; 0]).
  - unfold Millisecond, Second; lia.
  - unfold Second; lia.
  - vm_compute; discriminate.
  - vm_compute; discriminate.
Defined.

(** C1, counterexample: with [initial = 1s > max = 500ms] and factor 2 the
    second value is smaller than the first; with [initial = 2^53 + 1] and
    factor 1 the conversion to float64 rounds [current] down, so the
    sequence decreases although [initial <= max]. *)
Lemma unjittered_sequence_decreases :
  (outputs amd64_conv (New Second f64_2 (500 * Millisecond) [WithJitter false])
           [0; 0; 0]
   = [Ok 1000000000; Ok 500000000; Ok 500000000] /\
   500000000 < 1000000000) /\
  (outputs amd64_conv (New (2 ^ 53 + 1) f64_1 (2 ^ 62) [WithJitter false])
           [0; 0]
   = [Ok 9007199254740993; Ok 9007199254740992] /\
   9007199254740992 < 9007199254740993).
Proof. repeat split; reflexivity. Qed.

(** ** Non-negative results *)

Section Nonnegative.

Variable conv : float64 -> Z.
Variables (i m : Duration) (f : float64).
Hypothesis Hi : 0 <= i <= 2 ^ 53.
Hypothesis Hm : 0 <= m <= 2 ^ 53.
Hypothesis Hfin : is_finite f = true.
Hypothesis Hf : (0 <= SF2Q f)%Q.
Hypothesis Hif : (inject_Z i * SF2Q f <= inject_Z MaxExact)%Q.
Hypothesis Hmf : (inject_Z m * SF2Q f <= inject_Z MaxExact)%Q.

Lemma advance_nonneg j c z :
  0 <= c <= Z.max i m ->
  exists c',
    advance conv (mkBackoff i f m j c z) = mkBackoff i f m j c' true /\
    0 <= c' <= Z.max i m.
Proof.
  intros Hc. unfold advance.
  cbn [initialized negb factor current max initial withJitter].
  destruct z; cbn [negb].
  - destruct (grow_bounds conv f c) as [[H0 _] _]; try assumption; try lia.
    { destruct (Z.max_spec i m) as [[_ E]|[_ E]]; rewrite E in Hc.
      - apply scale_le with m; [lia | assumption | assumption].
      - apply scale_le with i; [lia | assumption | assumption]. }
    eexists; split; [reflexivity|].
    destruct (grow conv f c >? m) eqn:E; [lia|].
    rewrite Z.gtb_ltb in E. apply Z.ltb_ge in E. lia.
  - exists i; split; [reflexivity | lia].
Qed.

Lemma result_nonneg (j : bool) c r :
  0 <= c <= Z.max i m ->
  exists d,
    (if j then Int63n r (wrap64 (c + 1)) else Ok c) = Ok d /\
    0 <= d <= Z.max i m.
Proof.
  intros Hc. destruct j; [|exists c; split; [reflexivity | lia]].
  rewrite wrap64_small by (unfold MinInt64, MaxInt64; lia).
  destruct (Int63n_range r (c + 1)) as (d & -> & Hd); [lia|].
  exists d; split; [reflexivity | lia].
Qed.

Lemma trace_nonneg j ops :
  forall c z,
    0 <= c <= Z.max i m ->
    Forall (fun o => exists d, o = Ok d /\ 0 <= d <= Z.max i m)
           (trace conv (mkBackoff i f m j c z) ops).
Proof.
  induction ops as [|[r|] ops IH]; intros c z Hc; [constructor| |].
  - rewrite trace_CallNext, snd_Next.
    destruct (advance_nonneg j c z Hc) as (c' & -> & Hc').
    constructor; [apply result_nonneg; assumption | now apply IH].
  - cbn [trace]. now apply IH.
Qed.

End Nonnegative.

(** C4 (as amended): for [0 <= initial <= 2^53], [0 <= max <= 2^53] and a
    finite [factor >= 0] with [initial * factor] and [max * factor] at most
    [2^63 - 1024] -- which covers zero [initial], [factor < 1] including
    zero, and [max < initial] -- and with jitter enabled or disabled, no
    [Next] panics and every returned duration [d] satisfies
    [0 <= d <= max(initial, max)], whatever the sequence of [Next] and
    [Reset] calls. *)
Theorem Next_nonnegative conv i f m js ops :
  0 <= i <= 2 ^ 53 -> 0 <= m <= 2 ^ 53 ->
  is_finite f = true -> (0 <= SF2Q f)%Q ->
  (inject_Z i * SF2Q f <= inject_Z MaxExact)%Q ->
  (inject_Z m * SF2Q f <= inject_Z MaxExact)%Q ->
  Forall (fun o => exists d, o = Ok d /\ 0 <= d <= Z.max i m)
         (trace conv (New i f m (map WithJitter js)) ops).
Proof.
  intros Hi Hm Hfin Hf Hif Hmf. rewrite New_WithJitter.
  apply (trace_nonneg conv i m f); try assumption; lia.
Qed.

Lemma Next_nonnegative_witness :
  Forall (fun o => exists d, o = Ok d /\ 0 <= d <= Z.max Second (500 * Millisecond))
         (trace amd64_conv
            (New Second f64_1_5 (500 * Millisecond) (map WithJitter [true]))
            [CallNext 11; CallNext 22; CallReset; CallNext 33]).
Proof.
  apply (Next_nonnegative amd64_conv Second f64_1_5 (500 * Millisecond)
           [true] [CallNext 11; CallNext 22; CallReset; CallNext 33]).
  - unfold Second; lia.
  - unfold Millisecond; lia.
  - reflexivity.
  - vm_compute; discriminate.
  - vm_compute; discriminate.
  - vm_compute; discriminate.
Defined.

(** C4, counterexample: a negative [initial] is returned as it is when
    jitter is disabled, and makes [rand.Int63n] panic when jitter is
    enabled. *)
Lemma Next_negative_or_panics :
  outputs amd64_conv (New (-1) f64_2 Second [WithJitter false]) [0]
  = [Ok (-1)] /\
  outputs amd64_conv (New (-1) f64_2 Second [WithJitter true]) [0]
  = [Panic].
Proof. split; reflexivity. Qed.

(** ** Overflow of the growth step *)

(** C7, the failing input: [New(1s, 1e10, 10s)] without jitter.  The second
    candidate [1e19] is above [2^63]; on amd64 its conversion is [MinInt64],
    which is not greater than [max], so it is stored and returned. *)
Lemma overflow_wraps_on_amd64 :
  outputs amd64_conv (New Second f64_1e10 (10 * Second) [WithJitter false])
          [0; 0; 0]
  = [Ok 1000000000; Ok MinInt64; Ok MinInt64] /\
  outputs amd64_conv (New Second f64_1e10 (10 * Second) [WithJitter true])
          [0; 0]
  = [Ok 0; Panic].
Proof. split; reflexivity. Qed.

(** Where the conversion saturates (arm64) the same calls are clamped. *)
Lemma overflow_clamped_on_arm64 :
  outputs arm64_conv (New Second f64_1e10 (10 * Second) [WithJitter false])
          [0; 0; 0]
  = [Ok 1000000000; Ok 10000000000; Ok 10000000000].
Proof. reflexivity. Qed.

(** ** Concurrent callers *)

Lemma nth_error_upd_eq {A} (l : list A) n x y :
  nth_error l n = Some y -> nth_error (upd n x l) n = Some x.
Proof.
  revert n; induction l as [|a l IH]; intros [|n] H; simpl in *;
    try discriminate; auto.
Qed.

Lemma nth_error_upd_neq {A} (l : list A) n n' x :
  n <> n' -> nth_error (upd n x l) n' = nth_error l n'.
Proof.
  revert n n'; induction l as [|a l IH]; intros [|n] [|n'] H; simpl;
    try reflexivity; try congruence.
  apply IH; congruence.
Qed.

Lemma upd_upd {A} (l : list A) n x y : upd n x (upd n y l) = upd n x l.
Proof.
  revert n; induction l as [|a l IH]; intros [|n]; simpl; try reflexivity.
  now rewrite IH.
Qed.

Section ConcurrentFacts.

Variable conv : float64 -> Z.

Lemma outcome_entry b o : outcome conv b (entry o) = apply_op conv b o.
Proof.
  destruct b as [i f m j c z], o as [r|]; [|reflexivity].
  unfold outcome, apply_op, Next, advance; simpl.
  destruct z; simpl; [fold (grow conv f c)|]; destruct j; reflexivity.
Qed.

Lemma outcome_body_step b p :
  in_body p = true ->
  outcome conv (fst (body_step conv b p)) (snd (body_step conv b p))
  = outcome conv b p.
Proof.
  destruct b as [i f m j c z].
  destruct p; try discriminate; intros _; try reflexivity.
  destruct z; reflexivity.
Qed.


Lemma point_cases p :
  p = Idle \/ (exists res, p = NextReturn res) \/ p = ResetReturn \/
  in_body p = true.
Proof. destruct p; eauto. Qed.

Lemma body_step_not_idle b p :
  in_body p = true -> snd (body_step conv b p) <> Idle.
Proof.
  destruct p; try discriminate; intros _; simpl; try discriminate.
  destruct (initialized b); discriminate.
Qed.

Lemma sched_step_body w t g :
  nth_error (goroutines w) t = Some g ->
  in_body (at_point g) = true ->
  sched_step conv w t
  = Some (mkWorld (fst (body_step conv (shared w) (at_point g))) (mu w)
            (upd t (mkGoroutine (snd (body_step conv (shared w) (at_point g)))
                                (todo g) (returned g))
                 (goroutines w)),
          false).
Proof.
  intros Hg Hp. unfold sched_step. rewrite Hg.
  destruct (at_point g); try discriminate;
    now destruct (body_step conv (shared w) _).
Qed.

Lemma serial_step_lock w t g o rest :
  mu w = None ->
  nth_error (goroutines w) t = Some g ->
  at_point g = Idle -> todo g = o :: rest ->
  serial_step conv w t
  = Some (settle conv
            (mkWorld (shared w) (Some t)
               (upd t (mkGoroutine (entry o) rest (returned g))
                    (goroutines w)))
            t (mkGoroutine (entry o) rest (returned g))).
Proof.
  intros Hmu Hg Hp Ho. unfold serial_step, settle.
  rewrite Hg, Hp, Ho, Hmu. cbn [shared at_point todo returned goroutines].
  rewrite outcome_entry. destruct (apply_op conv (shared w) o).
  now rewrite upd_upd.
Qed.

Lemma settle_body_step w t g :
  in_body (at_point g) = true ->
  settle conv
    (mkWorld (fst (body_step conv (shared w) (at_point g))) (mu w)
       (upd t (mkGoroutine (snd (body_step conv (shared w) (at_point g)))
                           (todo g) (returned g))
            (goroutines w)))
    t (mkGoroutine (snd (body_step conv (shared w) (at_point g)))
                   (todo g) (returned g))
  = settle conv w t g.
Proof.
  intros Hp. unfold settle. cbn [shared at_point todo returned goroutines].
  rewrite outcome_body_step by assumption.
  destruct (outcome conv (shared w) (at_point g)). now rewrite upd_upd.
Qed.

Lemma others_idle_upd w t b k x :
  others_idle w t ->
  others_idle (mkWorld b k (upd t x (goroutines w))) t.
Proof.
  intros H t' g' Hne Hg'. cbn [goroutines] in Hg'.
  rewrite nth_error_upd_neq in Hg' by congruence. now apply (H t').
Qed.

Lemma all_idle_upd w t b k g x :
  nth_error (goroutines w) t = Some g ->
  others_idle w t -> at_point x = Idle ->
  all_idle (mkWorld b k (upd t x (goroutines w))).
Proof.
  intros Hg H Hx t' g' Hg'. cbn [goroutines] in Hg'.
  destruct (Nat.eq_dec t' t) as [->|Hne].
  - rewrite (nth_error_upd_eq _ _ _ _ Hg) in Hg'. now injection Hg' as <-.
  - rewrite nth_error_upd_neq in Hg' by congruence. now apply (H t').
Qed.

(** While a call is under way its goroutine holds the mutex, every other
    goroutine stands between calls, and the interleaving goes on as the
    serial run that starts where the call has run to its end. *)
Lemma sched_run_serial sched :
  forall w w' order,
    sched_run conv w sched = Some (w', order) ->
    mu w' = None ->
    match mu w with
    | None => all_idle w -> serial_run conv w order = Some w'
    | Some t =>
        forall g,
          nth_error (goroutines w) t = Some g ->
          at_point g <> Idle -> others_idle w t ->
          serial_run conv (settle conv w t g) order = Some w'
    end.
Proof.
  induction sched as [|t' sched IH]; intros w w' order Hrun Hfree.
  - injection Hrun as <- <-. rewrite Hfree. reflexivity.
  - cbn [sched_run] in Hrun.
    destruct (sched_step conv w t') as [[w1 acquired]|] eqn:Hstep;
      [|discriminate].
    destruct (sched_run conv w1 sched) as [[w2 order1]|] eqn:Hrun1;
      [|discriminate].
    injection Hrun as <- <-.
    specialize (IH w1 w2 order1 Hrun1 Hfree).
    destruct (mu w) as [t|] eqn:Hmu.
    + (* the mutex is held by [t] *)
      intros g Hg Hp Hothers.
      destruct (Nat.eq_dec t' t) as [->|Hne].
      * destruct (point_cases (at_point g)) as [E|[[res E]|[E|E]]];
          [contradiction| | |].
        -- (* the deferred Unlock of Next *)
           unfold sched_step in Hstep. rewrite Hg, E in Hstep.
           injection Hstep as <- <-. cbn [mu] in IH.
           unfold settle. rewrite E. cbn [outcome remaining finish].
           apply IH. eapply all_idle_upd; eauto.
        -- (* the deferred Unlock of Reset *)
           unfold sched_step in Hstep. rewrite Hg, E in Hstep.
           injection Hstep as <- <-. cbn [mu] in IH.
           unfold settle. rewrite E. cbn [outcome remaining finish].
           rewrite app_nil_r. apply IH. eapply all_idle_upd; eauto.
        -- (* a statement of the body *)
           rewrite (sched_step_body w t g Hg E) in Hstep.
           injection Hstep as <- <-. cbn [mu] in IH. rewrite Hmu in IH.
           rewrite <- (settle_body_step w t g E).
           apply IH.
           ++ cbn [goroutines]. eapply nth_error_upd_eq; eauto.
           ++ cbn [at_point]. now apply body_step_not_idle.
           ++ now apply others_idle_upd.
      * (* another goroutine is blocked in Lock *)
        unfold sched_step in Hstep.
        destruct (nth_error (goroutines w) t') as [g'|] eqn:Hg';
          [|discriminate].
        rewrite (Hothers t' g' Hne Hg'), Hmu in Hstep.
        destruct (todo g'); discriminate.
    + (* the mutex is free: the step is a Lock *)
      intros Hidle. unfold sched_step in Hstep.
      destruct (nth_error (goroutines w) t') as [g'|] eqn:Hg';
        [|discriminate].
      pose proof (Hidle t' g' Hg') as Hp. rewrite Hp, Hmu in Hstep.
      destruct (todo g') as [|o rest] eqn:Ho; [discriminate|].
      injection Hstep as <- <-. cbn [mu] in IH.
      cbn [serial_run].
      rewrite (serial_step_lock w t' g' o rest Hmu Hg' Hp Ho).
      apply IH.
      * cbn [goroutines]. eapply nth_error_upd_eq; eauto.
      * cbn [at_point]. destruct o; discriminate.
      * intros t'' g'' Hne Hg''. cbn [goroutines] in Hg''.
        rewrite nth_error_upd_neq in Hg'' by congruence. now apply (Hidle t'').
Qed.

Lemma sched_step_well_locked w t w1 acquired :
  well_locked w -> sched_step conv w t = Some (w1, acquired) ->
  well_locked w1.
Proof.
  unfold well_locked. intros Hw Hstep.
  destruct (mu w) as [h|] eqn:Hmu.
  - destruct Hw as [(g & Hg & Hp) Hothers].
    destruct (Nat.eq_dec t h) as [->|Hne].
    + destruct (point_cases (at_point g)) as [E|[[res E]|[E|E]]];
        [contradiction| | |].
      * unfold sched_step in Hstep. rewrite Hg, E in Hstep.
        injection Hstep as <- <-. cbn [mu]. eapply all_idle_upd; eauto.
      * unfold sched_step in Hstep. rewrite Hg, E in Hstep.
        injection Hstep as <- <-. cbn [mu]. eapply all_idle_upd; eauto.
      * rewrite (sched_step_body w h g Hg E) in Hstep.
        injection Hstep as <- <-. cbn [mu]. rewrite Hmu. split.
        -- eexists. split.
           ++ cbn [goroutines]. eapply nth_error_upd_eq; eauto.
           ++ cbn [at_point]. now apply body_step_not_idle.
        -- now apply others_idle_upd.
    + unfold sched_step in Hstep.
      destruct (nth_error (goroutines w) t) as [g'|] eqn:Hg'; [|discriminate].
      rewrite (Hothers t g' Hne Hg'), Hmu in Hstep.
      destruct (todo g'); discriminate.
  - unfold sched_step in Hstep.
    destruct (nth_error (goroutines w) t) as [g'|] eqn:Hg'; [|discriminate].
    pose proof (Hw t g' Hg') as Hp. rewrite Hp, Hmu in Hstep.
    destruct (todo g') as [|o rest]; [discriminate|].
    injection Hstep as <- <-. cbn [mu]. split.
    + eexists. split.
      * cbn [goroutines]. eapply nth_error_upd_eq; eauto.
      * cbn [at_point]. destruct o; discriminate.
    + intros t'' g'' Hne Hg''. cbn [goroutines] in Hg''.
      rewrite nth_error_upd_neq in Hg'' by congruence. now apply (Hw t'').
Qed.

Lemma sched_run_well_locked sched :
  forall w w' order,
    well_locked w -> sched_run conv w sched = Some (w', order) ->
    well_locked w'.
Proof.
  induction sched as [|t sched IH]; intros w w' order Hw Hrun.
  - now injection Hrun as <- <-.
  - cbn [sched_run] in Hrun.
    destruct (sched_step conv w t) as [[w1 a]|] eqn:Hstep; [|discriminate].
    destruct (sched_run conv w1 sched) as [[w2 order1]|] eqn:Hrun1;
      [|discriminate].
    injection Hrun as <- <-.
    eapply IH; [|exact Hrun1]. eapply sched_step_well_locked; eauto.
Qed.

(** A goroutine that does not hold the mutex cannot take a step while
    another one is inside a call. *)
Lemma blocked_while_locked w h t :
  well_locked w -> mu w = Some h -> t <> h -> sched_step conv w t = None.
Proof.
  unfold well_locked. intros Hw Hmu Hne. rewrite Hmu in Hw.
  destruct Hw as [_ Hothers]. unfold sched_step.
  destruct (nth_error (goroutines w) t) as [g|] eqn:Hg; [|reflexivity].
  rewrite (Hothers t g Hne Hg), Hmu. now destruct (todo g).
Qed.

(** No deadlock: as long as a call is under way or left to make, some
    goroutine can take a step. *)
Lemma sched_step_progress w :
  well_locked w ->
  (exists t g, nth_error (goroutines w) t = Some g /\
               (at_point g <> Idle \/ todo g <> [])) ->
  exists t w1 acquired, sched_step conv w t = Some (w1, acquired).
Proof.
  unfold well_locked. intros Hw (t & g & Hg & Hwork).
  destruct (mu w) as [h|] eqn:Hmu.
  - destruct Hw as [(gh & Hgh & Hp) _]. exists h.
    destruct (point_cases (at_point gh)) as [E|[[res E]|[E|E]]];
      [contradiction| | |].
    + unfold sched_step. rewrite Hgh, E. eauto.
    + unfold sched_step. rewrite Hgh, E. eauto.
    + rewrite (sched_step_body w h gh Hgh E). eauto.
  - exists t. unfold sched_step. rewrite Hg, (Hw t g Hg), Hmu.
    destruct Hwork as [Hp|Hto]; [now rewrite (Hw t g Hg) in Hp|].
    destruct (todo g); [contradiction | eauto].
Qed.

End ConcurrentFacts.

(** C9: goroutines that share one instance and call [Next] and [Reset]
    interleave statement by statement.  At every moment at most the
    goroutine that holds the mutex stands inside a call, and every
    interleaving that ends with the mutex free leaves the shared fields and
    every goroutine's returned durations exactly as the serial run of the
    same calls, one whole call after the other in the order in which they
    acquired the mutex, leaves them: each call's reads, writes and jitter
    draw form one critical section. *)
Theorem interleaving_serializable conv w sched w' order :
  mu w = None ->
  Forall (fun g => at_point g = Idle) (goroutines w) ->
  sched_run conv w sched = Some (w', order) ->
  well_locked w' /\
  (mu w' = None -> serial_run conv w order = Some w').
Proof.
  intros Hmu Hidle Hrun.
  assert (Hall : all_idle w).
  { intros t g Hg. rewrite Forall_forall in Hidle.
    apply Hidle. eapply nth_error_In; eauto. }
  split.
  - apply (sched_run_well_locked conv sched w w' order); [|exact Hrun].
    unfold well_locked. now rewrite Hmu.
  - intros Hfree.
    pose proof (sched_run_serial conv sched w w' order Hrun Hfree) as H.
    rewrite Hmu in H. now apply H.
Qed.

Lemma interleaving_serializable_witness :
  serial_run amd64_conv
    (mkWorld (New (100 * Millisecond) f64_2 Second [WithJitter false]) None
       [mkGoroutine Idle [CallNext 0; CallReset] [];
        mkGoroutine Idle [CallNext 0] []])
    [0; 1; 0]%nat
  = Some (mkWorld (mkBackoff 100000000 f64_2 1000000000 false 200000000 false)
            None
            [mkGoroutine Idle [] [Ok 100000000];
             mkGoroutine Idle [] [Ok 200000000]]).
Proof.
  apply (interleaving_serializable amd64_conv _
           [0; 0; 0; 0; 0; 0; 1; 1; 1; 1; 1; 1; 1; 0; 0; 0]%nat).
  - reflexivity.
  - repeat constructor.
  - reflexivity.
  - reflexivity.
Defined.

(** * Further properties of the code *)

(** ** The growth step against exact arithmetic *)

(** An integer up to [2^53] that bounds the exact product bounds its
    rounding too. *)
Lemma upper_Z_small M E V B :
  0 < M ->
  V = M / 2 ^ shift1 M E \/
  (V = M / 2 ^ shift1 M E + 1 /\ M mod 2 ^ shift1 M E <> 0) ->
  0 <= B <= 2 ^ 53 ->
  M * pexp E <= B * nexp E ->
  tr V (E + shift1 M E) <= B /\ E + shift1 M E + 1 <= 971.
Proof.
  intros HM HV HB Hx.
  destruct (Zdigits2_bounds M HM) as [Hd HD].
  assert (Hpn : 0 < 2 ^ shift1 M E)
    by (apply Z.pow_pos_nonneg; unfold shift1; lia).
  pose proof (Z.div_mod M (2 ^ shift1 M E) ltac:(lia)) as Hdm.
  pose proof (Z.mod_pos_bound M (2 ^ shift1 M E) Hpn) as Hmb.
  assert (Hceil : (V - 1) * 2 ^ shift1 M E < M)
    by (destruct HV as [->|[-> ?]]; nia).
  (* the exact value is below 2^54 *)
  assert (HdE : Zdigits2 M + E <= 54).
  { unfold pexp, nexp in Hx.
    destruct (Z.le_gt_cases 0 E) as [HE|HE].
    - replace (Z.max E 0) with E in Hx by lia.
      replace (Z.max (- E) 0) with 0 in Hx by lia.
      change (2 ^ 0) with 1 in Hx.
      assert (2 ^ (Zdigits2 M - 1 + E) < 2 ^ 54).
      { rewrite Z.pow_add_r by lia.
        assert (0 < 2 ^ E) by (apply Z.pow_pos_nonneg; lia).
        change (2 ^ 54) with (2 ^ 53 * 2). nia. }
      assert (Zdigits2 M - 1 + E < 54) by (apply (Z.pow_lt_mono_r_iff 2); lia).
      lia.
    - replace (Z.max E 0) with 0 in Hx by lia.
      replace (Z.max (- E) 0) with (- E) in Hx by lia.
      change (2 ^ 0) with 1 in Hx.
      assert (2 ^ (Zdigits2 M - 1) < 2 ^ (54 + - E)).
      { rewrite (Z.pow_add_r 2 54) by lia.
        assert (0 < 2 ^ (- E)) by (apply Z.pow_pos_nonneg; lia).
        change (2 ^ 54) with (2 ^ 53 * 2). nia. }
      assert (Zdigits2 M - 1 < 54 + - E) by (apply (Z.pow_lt_mono_r_iff 2); lia).
      lia. }
  split; [|unfold shift1; rewrite fexp64_eq; lia].
  unfold tr, pexp, nexp in *.
  destruct (Z.eq_dec (shift1 M E) 0) as [Hn0|Hn0].
  - rewrite Hn0 in *. change (2 ^ 0) with 1 in *. rewrite Z.add_0_r.
    assert (V = M) by (rewrite Z.div_1_r, Z.mod_1_r in HV; lia). subst V.
    destruct (0 <=? E) eqn:HE; rewrite ?Z.leb_le, ?Z.leb_gt in HE.
    + replace (Z.max E 0) with E in Hx by lia.
      replace (Z.max (- E) 0) with 0 in Hx by lia.
      change (2 ^ 0) with 1 in Hx. lia.
    + replace (Z.max E 0) with 0 in Hx by lia.
      replace (Z.max (- E) 0) with (- E) in Hx by lia.
      change (2 ^ 0) with 1 in Hx.
      apply Z.div_le_upper_bound; [apply Z.pow_pos_nonneg; lia | lia].
  - set (n := shift1 M E) in *.
    assert (Hn : 0 < n) by (unfold n, shift1 in *; lia).
    assert (HE' : E + n = Z.max (Zdigits2 M + E - 53) (-1074))
      by (unfold n, shift1 in *; rewrite fexp64_eq in *; lia).
    destruct (Z.lt_ge_cases 0 (E + n)) as [Hpos|Hnp].
    + (* only [2^53] itself reaches a positive exponent *)
      assert (HE1 : E + n = 1) by lia.
      assert (HdE54 : Zdigits2 M + E = 54) by lia.
      assert (Hnd : n = Zdigits2 M - 53) by lia.
      assert (HMp : M = 2 ^ (Zdigits2 M - 1) /\ B = 2 ^ 53).
      { destruct (Z.le_gt_cases 0 E) as [HE|HE].
        - replace (Z.max E 0) with E in Hx by lia.
          replace (Z.max (- E) 0) with 0 in Hx by lia.
          change (2 ^ 0) with 1 in Hx.
          assert (Hs : 2 ^ 53 = 2 ^ (Zdigits2 M - 1) * 2 ^ E)
            by (rewrite <- Z.pow_add_r by lia; f_equal; lia).
          assert (0 < 2 ^ E) by (apply Z.pow_pos_nonneg; lia).
          split; nia.
        - replace (Z.max E 0) with 0 in Hx by lia.
          replace (Z.max (- E) 0) with (- E) in Hx by lia.
          change (2 ^ 0) with 1 in Hx.
          assert (Hs : 2 ^ (Zdigits2 M - 1) = 2 ^ 53 * 2 ^ (- E))
            by (rewrite <- Z.pow_add_r by lia; f_equal; lia).
          assert (0 < 2 ^ (- E)) by (apply Z.pow_pos_nonneg; lia).
          split; nia. }
      destruct HMp as [HMp ->].
      assert (Hs : 2 ^ (Zdigits2 M - 1) = 2 ^ 52 * 2 ^ n)
        by (rewrite <- Z.pow_add_r by lia; f_equal; lia).
      assert (Hmod : M mod 2 ^ n = 0)
        by (rewrite HMp, Hs; apply Z.mod_mul; lia).
      assert (HVe : V = 2 ^ 52).
      { destruct HV as [->|[_ ?]]; [|contradiction].
        rewrite HMp, Hs. apply Z.div_mul. lia. }
      rewrite HE1, HVe. reflexivity.
    + destruct (Z.le_gt_cases 0 E) as [HE|HE]; [lia|].
      replace (Z.max E 0) with 0 in Hx by lia.
      replace (Z.max (- E) 0) with (- E) in Hx by lia.
      change (2 ^ 0) with 1 in Hx.
      assert (Hs : 2 ^ (- E) = 2 ^ (- (E + n)) * 2 ^ n)
        by (rewrite <- Z.pow_add_r by lia; f_equal; lia).
      assert (Hq : 0 < 2 ^ (- (E + n))) by (apply Z.pow_pos_nonneg; lia).
      assert (HVB : V <= B * 2 ^ (- (E + n))) by (rewrite Hs in Hx; nia).
      destruct (0 <=? E + n) eqn:HEn; rewrite ?Z.leb_le, ?Z.leb_gt in HEn.
      * replace (E + n) with 0 in * by lia. change (2 ^ (- 0)) with 1 in *.
        change (2 ^ 0) with 1. lia.
      * apply Z.div_le_upper_bound; lia.
Qed.

(** Integers on both sides of the exact product [c * f] are on both sides
    of the converted float64 product. *)
Lemma grow_between conv f c lo hi :
  0 <= c <= 2 ^ 53 -> is_finite f = true -> (0 <= SF2Q f)%Q ->
  0 <= lo -> hi <= 2 ^ 53 ->
  (inject_Z lo <= inject_Z c * SF2Q f)%Q ->
  (inject_Z c * SF2Q f <= inject_Z hi)%Q ->
  lo <= grow conv f c <= hi.
Proof.
  intros Hc Hfin Hf0 Hlo Hhi Hl Hu.
  assert (Hlh : lo <= hi) by (rewrite Zle_Qle; eapply Qle_trans; eauto).
  destruct (Z.eq_dec c 0) as [->|Hc0].
  { rewrite grow_zero by assumption.
    rewrite Qmult_0_l in Hl, Hu. change 0%Q with (inject_Z 0) in Hl, Hu.
    rewrite <- Zle_Qle in Hl, Hu. lia. }
  destruct (float64_of_int64_exact c) as (mc & ec & Hfc & Hrep); [lia|].
  unfold grow. rewrite Hfc.
  destruct f as [s| | |s mf ef]; try discriminate.
  - cbn. unfold SF2Q in Hl, Hu. rewrite Qmult_0_r in Hl, Hu.
    change 0%Q with (inject_Z 0) in Hl, Hu.
    rewrite <- Zle_Qle in Hl, Hu. lia.
  - destruct s.
    + exfalso. unfold SF2Q in Hf0.
      apply (Qval_ge (Zneg mf) ef 0) in Hf0.
      pose proof (pexp_pos ef). nia.
    + unfold SF2Q in *. unfold fmul, SFmul. cbn [xorb].
      set (M := Pos.mul mc mf). set (E := ec + ef).
      assert (Hx : (inject_Z (Zpos M) * 2 ^ E
                    == inject_Z c * (inject_Z (Zpos mf) * 2 ^ ef))%Q).
      { unfold M, E. rewrite Pos2Z.inj_mul, Qval_mul.
        now rewrite (Qval_exact _ _ _ Hrep). }
      destruct (bra_spec false M E) as (V & HV & HR).
      assert (HV0 : 0 <= V).
      { assert (0 <= Zpos M / 2 ^ shift1 (Zpos M) E)
          by (apply Z.div_pos; [lia|apply Z.pow_pos_nonneg; unfold shift1; lia]).
        lia. }
      destruct (upper_Z_small (Zpos M) E V hi ltac:(lia) HV) as [Hup Hexp].
      { lia. }
      { apply Qval_le. now rewrite Hx. }
      pose proof (tr_nonneg V (E + shift1 (Zpos M) E) HV0) as Hnn.
      assert (Hg : Duration_of_float64 conv
                     (binary_round_aux prec64 emax64 false (Zpos M) E loc_Exact)
                   = tr V (E + shift1 (Zpos M) E)).
      { destruct HR as [[HVz ->]|[(m'' & n2 & Hn2 & HVm & ->)|[_ Hinf]]].
        - subst V. now rewrite tr_0.
        - apply Duration_of_float64_in_range.
          + rewrite SFtrunc_finite by assumption. now rewrite <- HVm.
          + unfold MinInt64, MaxInt64 in *. lia.
        - lia. }
      rewrite Hg. split; [|lia].
      apply (lower_Z (Zpos M) E V lo); try assumption; try lia.
      apply Qval_ge. now rewrite Hx.
Qed.

(** X5: for [0 <= current <= 2^53], a finite factor [f >= 0] and an exact
    product [current * f] of at most [2^53], the candidate
    [time.Duration(float64(current) * f)] is the exact product rounded down
    or up to a whole nanosecond: it never differs from [current * f] by one
    nanosecond or more. *)
Theorem grow_within_one_of_exact conv f c :
  0 <= c <= 2 ^ 53 -> is_finite f = true -> (0 <= SF2Q f)%Q ->
  (inject_Z c * SF2Q f <= inject_Z (2 ^ 53))%Q ->
  Qfloor (inject_Z c * SF2Q f) <= grow conv f c
  <= Qceiling (inject_Z c * SF2Q f).
Proof.
  intros Hc Hfin Hf0 Hu.
  assert (Hx0 : (0 <= inject_Z c * SF2Q f)%Q).
  { apply Qmult_le_0_compat; [|assumption].
    change 0%Q with (inject_Z 0). rewrite <- Zle_Qle. lia. }
  apply grow_between; try assumption.
  - change 0 with (Qfloor 0). now apply Qfloor_resp_le.
  - rewrite <- (Qceiling_Z (2 ^ 53)). now apply Qceiling_resp_le.
  - apply Qfloor_le.
  - apply Qle_ceiling.
Qed.

Lemma grow_within_one_of_exact_witness :
  Qfloor (inject_Z 333333333 * SF2Q f64_1_001) <= grow amd64_conv f64_1_001 333333333
  <= Qceiling (inject_Z 333333333 * SF2Q f64_1_001).
Proof.
  apply (grow_within_one_of_exact amd64_conv f64_1_001 333333333).
  - lia.
  - reflexivity.
  - vm_compute; discriminate.
  - vm_compute; discriminate.
Defined.


(** ** Integral factors *)

Lemma SF2Q_float64_of_int64 k :
  0 < k <= 2 ^ 53 ->
  is_finite (float64_of_int64 k) = true /\
  (SF2Q (float64_of_int64 k) == inject_Z k)%Q.
Proof.
  intros Hk.
  destruct (float64_of_int64_exact k Hk) as (mk & ek & -> & Hrep).
  split; [reflexivity|]. unfold SF2Q. now apply Qval_exact.
Qed.

Lemma grow_integral conv k c :
  0 < k <= 2 ^ 53 -> 0 <= c -> c * k <= 2 ^ 53 ->
  grow conv (float64_of_int64 k) c = c * k.
Proof.
  intros Hk Hc Hck.
  destruct (SF2Q_float64_of_int64 k Hk) as [Hfin Hq].
  assert (Hx : (inject_Z c * SF2Q (float64_of_int64 k) == inject_Z (c * k))%Q)
    by (rewrite Hq, inject_Z_mult; reflexivity).
  assert (lo : c * k <= grow conv (float64_of_int64 k) c <= c * k).
  { apply grow_between; try assumption; try nia.
    - rewrite Hq. change 0%Q with (inject_Z 0). rewrite <- Zle_Qle. lia.
    - rewrite Hx. apply Qle_refl.
    - rewrite Hx. apply Qle_refl. }
  lia.
Qed.

Section IntegralFactor.

Variable conv : float64 -> Z.
Variables (i k m : Z).
Hypothesis Hk : 1 <= k <= 2 ^ 53.
Hypothesis Hi : 0 <= i <= m.
Hypothesis Hmk : m * k <= 2 ^ 53.

Lemma min_power_step n :
  (if Z.min (i * k ^ Z.of_nat n) m * k >? m then m
   else Z.min (i * k ^ Z.of_nat n) m * k)
  = Z.min (i * k ^ Z.of_nat (S n)) m.
Proof.
  rewrite Nat2Z.inj_succ, Z.pow_succ_r by lia.
  assert (Hp : 0 < k ^ Z.of_nat n) by (apply Z.pow_pos_nonneg; lia).
  destruct (Z.min_spec (i * k ^ Z.of_nat n) m) as [[Hlt ->]|[Hge ->]].
  - replace (i * (k * k ^ Z.of_nat n)) with (i * k ^ Z.of_nat n * k) by ring.
    destruct (_ >? m) eqn:E.
    + apply Z.gtb_lt in E. lia.
    + rewrite Z.gtb_ltb in E. apply Z.ltb_ge in E. lia.
  - assert (m <= i * (k * k ^ Z.of_nat n)) by nia.
    destruct (m * k >? m) eqn:E.
    + lia.
    + rewrite Z.gtb_ltb in E. apply Z.ltb_ge in E. nia.
Qed.

Lemma advance_integral j n :
  advance conv
    (mkBackoff i (float64_of_int64 k) m j (Z.min (i * k ^ Z.of_nat n) m) true)
  = mkBackoff i (float64_of_int64 k) m j (Z.min (i * k ^ Z.of_nat (S n)) m)
              true.
Proof.
  unfold advance.
  cbn [initialized negb factor current max initial withJitter].
  rewrite grow_integral by (try lia; nia).
  now rewrite min_power_step.
Qed.

Lemma min_power_0 : Z.min (i * k ^ Z.of_nat 0) m = i.
Proof. simpl. lia. Qed.

Lemma outputs_integral n draws :
  outputs conv
    (mkBackoff i (float64_of_int64 k) m false
               (Z.min (i * k ^ Z.of_nat n) m) true) draws
  = map (fun j => Ok (Z.min (i * k ^ Z.of_nat j) m))
        (seq (S n) (length draws)).
Proof.
  revert n; induction draws as [|r draws IH]; intros n; [reflexivity|].
  rewrite outputs_cons, snd_Next, advance_integral, IH. reflexivity.
Qed.

End IntegralFactor.

(** X6: with jitter disabled, a factor that is an integer [k >= 1],
    [0 <= initial <= max] and [max * k <= 2^53], the [n]-th [Next] call
    (counted from 0) returns exactly [min (initial * k^n) max], computed in
    integers: the float64 arithmetic loses nothing. *)
Theorem integral_factor_closed_form conv i k m draws :
  1 <= k <= 2 ^ 53 -> 0 <= i <= m -> m * k <= 2 ^ 53 ->
  outputs conv (New i (float64_of_int64 k) m [WithJitter false]) draws
  = map (fun n => Ok (Z.min (i * k ^ Z.of_nat n) m))
        (seq 0 (length draws)).
Proof.
  intros Hk Hi Hmk.
  destruct draws as [|r draws]; [reflexivity|].
  rewrite outputs_cons, snd_Next.
  change (advance conv (New i (float64_of_int64 k) m [WithJitter false]))
    with (mkBackoff i (float64_of_int64 k) m false i true).
  replace (mkBackoff i (float64_of_int64 k) m false i true)
    with (mkBackoff i (float64_of_int64 k) m false
                    (Z.min (i * k ^ Z.of_nat 0) m) true)
    by (f_equal; simpl; lia).
  rewrite (outputs_integral conv i k m Hk Hi Hmk).
  cbn [withJitter current length seq map]. repeat f_equal; simpl; lia.
Qed.

Lemma integral_factor_closed_form_witness :
  outputs amd64_conv
    (New (100 * Millisecond) (float64_of_int64 2) Second [WithJitter false])
    [0; 0; 0; 0; 0; 0]
  = map (fun n => Ok (Z.min (100 * Millisecond * 2 ^ Z.of_nat n) Second))
        (seq 0 6).
Proof.
  apply (integral_factor_closed_form amd64_conv (100 * Millisecond) 2 Second
           [0; 0; 0; 0; 0; 0]).
  - lia.
  - unfold Millisecond, Second; lia.
  - unfold Second; lia.
Defined.

(** ** Construction *)

(** X1: [New] stores [initial], [factor] and [max] as given, starts with
    [current = 0] and not initialized, turns jitter on by default, and
    applies the options in order: of several [WithJitter] options the last
    one decides. *)
Theorem New_applies_options_in_order i f m js :
  New i f m (map WithJitter js) = mkBackoff i f m (last js true) 0 false.
Proof.
  unfold New. rewrite fold_WithJitter.
  cbn [initial factor max withJitter current initialized]. reflexivity.
Qed.

(** ** What the calls never change *)

(** X2: no sequence of [Next] and [Reset] calls changes [initial],
    [factor], [max] or the jitter setting. *)
Theorem parameters_never_change conv b ops :
  initial (exec conv b ops) = initial b /\
  factor (exec conv b ops) = factor b /\
  max (exec conv b ops) = max b /\
  withJitter (exec conv b ops) = withJitter b.
Proof.
  revert b; induction ops as [|o ops IH]; intros b; [now repeat split|].
  rewrite exec_cons.
  destruct (IH (exec_op conv b o)) as (-> & -> & -> & ->).
  destruct o as [r|]; cbn [exec_op].
  - rewrite fst_Next.
    destruct (advance_params conv b) as (Hi & Hf & Hm & Hj & _).
    now repeat split.
  - now repeat split.
Qed.

(** X3: the stored state depends neither on the jitter setting nor on the
    random draws: two runs with the same pattern of [Next] and [Reset]
    calls, one with jitter switched to [j] and any draws, end in states
    that differ in the jitter setting only. *)
Theorem state_independent_of_jitter conv j b ops ops' :
  map is_reset ops = map is_reset ops' ->
  exec conv (WithJitter j b) ops = WithJitter j (exec conv b ops').
Proof.
  revert ops' b.
  induction ops as [|o ops IH]; intros [|o' ops'] b H; try discriminate.
  - reflexivity.
  - cbn [map] in H. injection H as Ho H.
    rewrite !exec_cons.
    destruct o as [r|], o' as [r'|]; try discriminate; cbn [exec_op].
    + rewrite !fst_Next, advance_WithJitter. now apply IH.
    + rewrite Reset_WithJitter. now apply IH.
Qed.

Lemma state_independent_of_jitter_witness :
  exec amd64_conv
       (WithJitter true (New (100 * Millisecond) f64_2 Second []))
       [CallNext 11; CallNext 22; CallReset; CallNext 33; CallNext 44]
  = WithJitter true
      (exec amd64_conv (New (100 * Millisecond) f64_2 Second [])
            [CallNext 0; CallNext 0; CallReset; CallNext 0; CallNext 0]).
Proof.
  apply (state_independent_of_jitter amd64_conv true _
           [CallNext 11; CallNext 22; CallReset; CallNext 33; CallNext 44]
           [CallNext 0; CallNext 0; CallReset; CallNext 0; CallNext 0]).
  reflexivity.
Defined.

(** ** The clamp *)

Lemma wrap64_is_int64 z : is_int64 (wrap64 z).
Proof.
  unfold is_int64, wrap64, MinInt64, MaxInt64.
  pose proof (Z.mod_pos_bound (z + 2 ^ 63) (2 ^ 64) ltac:(lia)). lia.
Qed.

Lemma Duration_of_float64_is_int64 conv f :
  is_int64 (Duration_of_float64 conv f).
Proof.
  unfold Duration_of_float64.
  destruct (SFtrunc f) as [z|]; [|apply wrap64_is_int64].
  destruct ((MinInt64 <=? z) && (z <=? MaxInt64)) eqn:E;
    [|apply wrap64_is_int64].
  apply andb_true_iff in E. destruct E as [E1 E2].
  apply Z.leb_le in E1, E2. now split.
Qed.

(** X4: on an initialized instance, [Next] stores a [current] of at most
    [max] and returns at most [max], for every factor and every state, also
    when the product overflows or is NaN, whatever the conversion of such a
    float64 gives. *)
Theorem later_Next_at_most_max conv b r :
  initialized b = true -> is_int64 (max b) ->
  current (fst (Next conv b r)) <= max b /\
  forall d, snd (Next conv b r) = Ok d -> d <= max b.
Proof.
  intros Hz Hm. rewrite fst_Next, snd_Next.
  assert (Hc : current (advance conv b) <= max b /\
               is_int64 (current (advance conv b))).
  { unfold advance. rewrite Hz. cbn [negb current].
    pose proof (Duration_of_float64_is_int64 conv
                  (fmul (float64_of_int64 (current b)) (factor b))) as Hg.
    fold (grow conv (factor b) (current b)) in Hg.
    destruct (grow conv (factor b) (current b) >? max b) eqn:E;
      [split; [lia | assumption]|].
    rewrite Z.gtb_ltb in E. apply Z.ltb_ge in E. now split. }
  destruct Hc as [Hc Hi]. split; [exact Hc|].
  intros d Hd. destruct (withJitter b).
  - unfold Int63n in Hd.
    destruct (wrap64 (current (advance conv b) + 1) <=? 0) eqn:E;
      [discriminate|].
    apply Z.leb_gt in E. injection Hd as <-.
    assert (Hw : wrap64 (current (advance conv b) + 1)
                 = current (advance conv b) + 1).
    { unfold is_int64 in Hi.
      destruct (Z.eq_dec (current (advance conv b)) MaxInt64) as [Heq|Hne].
      - rewrite Heq, wrap64_succ_MaxInt64 in E. unfold MinInt64 in E; lia.
      - apply wrap64_small. unfold MinInt64, MaxInt64 in *; lia. }
    rewrite Hw in *.
    pose proof (Z.mod_pos_bound r (current (advance conv b) + 1) E). lia.
  - injection Hd as <-. exact Hc.
Qed.

Lemma later_Next_at_most_max_witness :
  current (fst (Next amd64_conv
                  (mkBackoff Second f64_1e10 (10 * Second) false Second true)
                  0)) <= 10 * Second.
Proof.
  refine (proj1 (later_Next_at_most_max amd64_conv
           (mkBackoff Second f64_1e10 (10 * Second) false Second true) 0
           eq_refl _)).
  vm_compute; split; discriminate.
Defined.

(** ** Full jitter *)

(** X15: with jitter enabled and [0 <= current < 2^63 - 1] after the state
    update, every value of the closed interval [[0, current]] is returned
    for some draw, [0] and [current] itself included: the interval is not
    [[0, current)]. *)
Theorem jitter_reaches_every_value conv b d :
  withJitter b = true ->
  0 <= d <= current (advance conv b) ->
  current (advance conv b) < MaxInt64 ->
  snd (Next conv b d) = Ok d.
Proof.
  intros Hj Hd Hc. rewrite snd_Next, Hj.
  rewrite wrap64_small by (unfold MinInt64, MaxInt64 in *; lia).
  unfold Int63n.
  destruct (current (advance conv b) + 1 <=? 0) eqn:E;
    [apply Z.leb_le in E; lia|].
  now rewrite Z.mod_small by lia.
Qed.

Lemma jitter_reaches_every_value_witness :
  snd (Next amd64_conv (New (100 * Millisecond) f64_2 Second [])
            (100 * Millisecond))
  = Ok (100 * Millisecond).
Proof.
  apply (jitter_reaches_every_value amd64_conv
           (New (100 * Millisecond) f64_2 Second []) (100 * Millisecond)).
  - reflexivity.
  - vm_compute; split; discriminate.
  - reflexivity.
Defined.

(** ** The band [initial .. max] *)

Lemma trace_apply_op conv b o ops :
  trace conv b (o :: ops)
  = snd (apply_op conv b o) ++ trace conv (fst (apply_op conv b o)) ops.
Proof.
  destruct o as [r|]; cbn [trace apply_op]; [|reflexivity].
  now destruct (Next conv b r).
Qed.

Lemma trace_app conv ops1 :
  forall b ops2,
    trace conv b (ops1 ++ ops2)
    = trace conv b ops1 ++ trace conv (exec conv b ops1) ops2.
Proof.
  induction ops1 as [|o ops1 IH]; intros b ops2; [reflexivity|].
  rewrite <- app_comm_cons, !trace_apply_op, IH, exec_cons, <- app_assoc.
  destruct o as [r|]; cbn [apply_op exec_op]; [|reflexivity].
  now destruct (Next conv b r).
Qed.

Section Band.

Variable conv : float64 -> Z.
Variables (i m : Duration) (f : float64) (j : bool).
Hypothesis Hi : 0 <= i <= m.
Hypothesis Hm : m <= 2 ^ 53.
Hypothesis Hf : (1 <= SF2Q f)%Q.
Hypothesis Hmf : (inject_Z m * SF2Q f <= inject_Z MaxExact)%Q.

Lemma in_band_New js :
  last js true = j -> in_band i f m j (New i f m (map WithJitter js)).
Proof.
  intros <-. rewrite New_WithJitter. unfold in_band; simpl.
  repeat split; auto; discriminate.
Qed.

Lemma in_band_apply_op b o :
  in_band i f m j b ->
  in_band i f m j (fst (apply_op conv b o)) /\
  Forall (band_result i m j) (snd (apply_op conv b o)).
Proof.
  destruct b as [i0 f0 m0 j0 c z]. unfold in_band; cbn [initial factor max
    withJitter current initialized].
  intros (-> & -> & -> & -> & Hc).
  destruct o as [r|]; cbn [apply_op].
  - destruct (Next conv (mkBackoff i f m j c z) r) as [b' res] eqn:EN.
    pose proof (f_equal fst EN) as E1. pose proof (f_equal snd EN) as E2.
    cbn [fst snd] in *. rewrite fst_Next in E1. rewrite snd_Next in E2.
    assert (Ha : exists c', advance conv (mkBackoff i f m j c z)
                            = mkBackoff i f m j c' true /\ i <= c' <= m).
    { unfold advance.
      cbn [initialized negb factor current max initial withJitter].
      destruct z; cbn [negb].
      - specialize (Hc eq_refl).
        destruct (SF2Q_ge1_finite f Hf) as [Hfin Hq].
        destruct (grow_bounds conv f c) as [_ HL]; try assumption; try lia.
        { now apply scale_le with m. }
        specialize (HL Hf).
        eexists; split; [reflexivity|].
        destruct (grow conv f c >? m) eqn:E; [lia|].
        rewrite Z.gtb_ltb in E. apply Z.ltb_ge in E. lia.
      - exists i; split; [reflexivity | lia]. }
    destruct Ha as (c' & Ha & Hc'). rewrite Ha in *.
    cbn [withJitter current] in E2. subst b' res.
    split; [cbn; repeat split; auto; lia|].
    constructor; [|constructor]. unfold band_result.
    destruct j.
    + rewrite wrap64_small by (unfold MinInt64, MaxInt64; lia).
      destruct (Int63n_range r (c' + 1)) as (d & -> & Hd); [lia|].
      exists d; split; [reflexivity | lia].
    + exists c'; split; [reflexivity | lia].
  - split; [|constructor]. cbn. repeat split; auto; discriminate.
Qed.

Lemma trace_in_band ops :
  forall b,
    in_band i f m j b -> Forall (band_result i m j) (trace conv b ops).
Proof.
  induction ops as [|o ops IH]; intros b Hb; [constructor|].
  rewrite trace_apply_op.
  destruct (in_band_apply_op b o Hb) as [Hb' Hres].
  apply Forall_app; split; [exact Hres | now apply IH].
Qed.

End Band.

(** X8: for [0 <= initial <= max <= 2^53], a factor [>= 1] and
    [max * factor <= 2^63 - 1024], every [Next] of every sequence of
    [Next] and [Reset] calls returns without panic a value in
    [[initial, max]] when jitter is disabled and in [[0, max]] when it is
    enabled. *)
Theorem results_stay_in_band conv i f m js ops :
  0 <= i <= m -> m <= 2 ^ 53 -> (1 <= SF2Q f)%Q ->
  (inject_Z m * SF2Q f <= inject_Z MaxExact)%Q ->
  Forall (band_result i m (last js true))
         (trace conv (New i f m (map WithJitter js)) ops).
Proof.
  intros Hi Hm Hf Hmf.
  apply (trace_in_band conv i m f (last js true) Hi Hm Hf Hmf).
  now apply in_band_New.
Qed.

Lemma results_stay_in_band_witness :
  Forall (band_result (10 * Millisecond) (100 * Millisecond) false)
         (trace amd64_conv
            (New (10 * Millisecond) f64_1_5 (100 * Millisecond)
                 (map WithJitter [false]))
            [CallNext 0; CallNext 0; CallReset; CallNext 0; CallNext 0;
             CallNext 0; CallNext 0; CallNext 0; CallNext 0; CallNext 0]).
Proof.
  apply (results_stay_in_band amd64_conv (10 * Millisecond) f64_1_5
           (100 * Millisecond) [false]).
  - unfold Millisecond; lia.
  - unfold Millisecond; lia.
  - vm_compute; discriminate.
  - vm_compute; discriminate.
Defined.

(** ** Concurrent callers stay in the band *)

Lemma Forall_upd {A} (P : A -> Prop) l n x :
  Forall P l -> P x -> Forall P (upd n x l).
Proof.
  intros Hl Hx. revert n; induction Hl as [|a l Ha Hl IH]; intros [|n];
    simpl; constructor; auto.
Qed.

Lemma serial_run_keeps conv (I : Backoff -> Prop) (P : result -> Prop) :
  (forall b o, I b ->
     I (fst (apply_op conv b o)) /\ Forall P (snd (apply_op conv b o))) ->
  forall order w w',
    serial_run conv w order = Some w' ->
    I (shared w) ->
    Forall (fun g => Forall P (returned g)) (goroutines w) ->
    I (shared w') /\
    Forall (fun g => Forall P (returned g)) (goroutines w').
Proof.
  intros Hstep. induction order as [|t order IH]; intros w w' Hrun HI HP.
  - injection Hrun as <-. auto.
  - cbn [serial_run] in Hrun.
    destruct (serial_step conv w t) as [w1|] eqn:Hs; [|discriminate].
    apply (IH w1 w' Hrun); unfold serial_step in Hs;
      destruct (nth_error (goroutines w) t) as [g|] eqn:Hg; try discriminate;
      destruct (at_point g); try discriminate;
      destruct (todo g) as [|o rest]; try discriminate;
      destruct (mu w); try discriminate;
      destruct (Hstep (shared w) o HI) as [HI' HP'];
      destruct (apply_op conv (shared w) o) as [b' res];
      injection Hs as <-; cbn [shared goroutines fst snd] in *.
    + exact HI'.
    + apply Forall_upd; [exact HP|]. cbn [returned].
      apply Forall_app; split; [|exact HP'].
      rewrite Forall_forall in HP. apply HP. eapply nth_error_In; eauto.
Qed.

(** X9: under the hypotheses of the band, goroutines that call [Next] and
    [Reset] on one shared instance, interleaved in any way, have all
    received values in [[initial, max]] (in [[0, max]] with jitter) once the
    mutex is free again: what [TestBackoff_Concurrency] checks on its
    results. *)
Theorem concurrent_results_stay_in_band conv i f m js gs sched w' order :
  0 <= i <= m -> m <= 2 ^ 53 -> (1 <= SF2Q f)%Q ->
  (inject_Z m * SF2Q f <= inject_Z MaxExact)%Q ->
  Forall (fun g => at_point g = Idle /\ returned g = []) gs ->
  sched_run conv (mkWorld (New i f m (map WithJitter js)) None gs) sched
  = Some (w', order) ->
  mu w' = None ->
  Forall (fun g => Forall (band_result i m (last js true)) (returned g))
         (goroutines w').
Proof.
  intros Hi Hm Hf Hmf Hgs Hrun Hfree.
  pose proof (sched_run_serial conv sched _ w' order Hrun Hfree) as Hser.
  cbn [mu] in Hser.
  assert (Hidle : all_idle (mkWorld (New i f m (map WithJitter js)) None gs)).
  { intros t g Hg. cbn [goroutines] in Hg.
    rewrite Forall_forall in Hgs.
    apply (Hgs g). eapply nth_error_In; eauto. }
  specialize (Hser Hidle).
  eapply (serial_run_keeps conv (in_band i f m (last js true))
            (band_result i m (last js true))); [| exact Hser | |].
  - intros b o. now apply in_band_apply_op.
  - cbn [shared]. now apply in_band_New.
  - cbn [goroutines]. eapply Forall_impl; [|exact Hgs].
    intros g [_ ->]. constructor.
Qed.

Lemma concurrent_results_stay_in_band_witness :
  Forall (fun g => Forall (band_result (10 * Millisecond) (100 * Millisecond)
                                       false) (returned g))
         [mkGoroutine Idle [] [Ok 10000000];
          mkGoroutine Idle [CallNext 0] [Ok 15000000]].
Proof.
  apply (concurrent_results_stay_in_band amd64_conv (10 * Millisecond) f64_1_5
           (100 * Millisecond) [false]
           [mkGoroutine Idle [CallNext 0] [];
            mkGoroutine Idle [CallNext 0; CallNext 0] []]
           [0; 0; 0; 0; 0; 0; 1; 1; 1; 1; 1; 1; 1]%nat
           (mkWorld (mkBackoff 10000000 f64_1_5 100000000 false 15000000 true)
                    None
                    [mkGoroutine Idle [] [Ok 10000000];
                     mkGoroutine Idle [CallNext 0] [Ok 15000000]])
           [0; 1]%nat).
  - unfold Millisecond; lia.
  - unfold Millisecond; lia.
  - vm_compute; discriminate.
  - vm_compute; discriminate.
  - repeat constructor.
  - reflexivity.
  - reflexivity.
Defined.

(** ** No deadlock *)

(** X10: the calls never deadlock: in every state reached by an
    interleaving from idle goroutines and a free mutex, if some goroutine
    has a call in progress or still to make, then some goroutine can take
    a step; this holds also after a call has panicked in [rand.Int63n],
    since the deferred [Unlock] runs. *)
Theorem interleaving_never_deadlocks conv w sched w' order :
  mu w = None ->
  Forall (fun g => at_point g = Idle) (goroutines w) ->
  sched_run conv w sched = Some (w', order) ->
  (exists t g, nth_error (goroutines w') t = Some g /\
               (at_point g <> Idle \/ todo g <> [])) ->
  exists t w1 acquired, sched_step conv w' t = Some (w1, acquired).
Proof.
  intros Hmu Hidle Hrun Hwork.
  apply sched_step_progress; [|exact Hwork].
  apply (sched_run_well_locked conv sched w w' order); [|exact Hrun].
  unfold well_locked. rewrite Hmu.
  intros t g Hg. rewrite Forall_forall in Hidle.
  apply Hidle. eapply nth_error_In; eauto.
Qed.

Lemma interleaving_never_deadlocks_witness :
  exists t w1 acquired,
    sched_step amd64_conv
      (mkWorld (mkBackoff (-1) f64_2 Second true (-1) true) (Some 0%nat)
         [mkGoroutine (NextReturn Panic) [] [];
          mkGoroutine Idle [CallNext 0] []]) t
    = Some (w1, acquired).
Proof.
  apply (interleaving_never_deadlocks amd64_conv
           (mkWorld (New (-1) f64_2 Second []) None
              [mkGoroutine Idle [CallNext 0] [];
               mkGoroutine Idle [CallNext 0] []])
           [0; 0; 0; 0; 0]%nat _ [0%nat]).
  - reflexivity.
  - repeat constructor.
  - reflexivity.
  - exists 0%nat. eexists. split; [reflexivity|]. left. discriminate.
Defined.

(** ** Restarting again and again *)

Lemma exec_app conv ops1 ops2 b :
  exec conv b (ops1 ++ ops2) = exec conv (exec conv b ops1) ops2.
Proof. unfold exec. apply fold_left_app. Qed.

(** X11: a loop that calls [Reset] and then [Next] a fixed number of times,
    as the reset example does for each operation, gets in every round what
    a fresh instance returns for the same draws, whatever was called
    before the loop. *)
Theorem Reset_loop_repeats conv i f m js ops0 draws n :
  trace conv (exec conv (New i f m (map WithJitter js)) ops0)
        (concat (repeat (CallReset :: map CallNext draws) n))
  = concat (repeat (outputs conv (New i f m (map WithJitter js)) draws) n).
Proof.
  revert ops0; induction n as [|n IH]; intros ops0; [reflexivity|].
  cbn [repeat concat]. rewrite trace_app. f_equal.
  - cbn [trace]. rewrite outputs_trace.
    apply same_behaviour_trace, same_behaviour_Reset_exec.
  - rewrite <- exec_app. apply IH.
Qed.

(** ** Factors of at most one *)

Section Decaying.

Variable conv : float64 -> Z.
Variables (i m : Duration) (f : float64).
Hypothesis Hi : 0 <= i <= 2 ^ 53.
Hypothesis Hm : 0 <= m.
Hypothesis Hfin : is_finite f = true.
Hypothesis Hf0 : (0 <= SF2Q f)%Q.
Hypothesis Hf1 : (SF2Q f <= 1)%Q.

Lemma grow_decays c : 0 <= c <= 2 ^ 53 -> 0 <= grow conv f c <= c.
Proof.
  intros Hc.
  assert (Hq : (0 <= inject_Z c)%Q)
    by (change 0%Q with (inject_Z 0); rewrite <- Zle_Qle; lia).
  apply grow_between; try assumption; try lia.
  - change (inject_Z 0) with 0%Q. now apply Qmult_le_0_compat.
  - rewrite <- (Qmult_1_r (inject_Z c)) at 2.
    rewrite !(Qmult_comm (inject_Z c)).
    now apply Qmult_le_compat_r.
Qed.

Lemma outputs_decay draws :
  forall c, 0 <= c <= i ->
  exists ds,
    outputs conv (mkBackoff i f m false c true) draws = map Ok ds /\
    StronglySorted Z.ge ds /\ Forall (fun d => 0 <= d <= c) ds.
Proof.
  induction draws as [|r draws IH]; intros c Hc.
  - exists []. repeat constructor.
  - rewrite outputs_cons, snd_Next. cbn [withJitter].
    unfold advance. cbn [initialized negb initial factor max withJitter current].
    pose proof (grow_decays c ltac:(lia)) as Hg.
    set (c' := if grow conv f c >? m then m else grow conv f c).
    assert (Hc' : 0 <= c' <= c)
      by (unfold c'; destruct (Z.gtb_spec (grow conv f c) m); lia).
    destruct (IH c' ltac:(lia)) as (ds & Ho & Hs & Hb).
    exists (c' :: ds). cbn [map current]. rewrite Ho.
    split; [reflexivity|]. split.
    + constructor; [assumption|].
      eapply Forall_impl; [|exact Hb]. cbn; intros; lia.
    + constructor; [lia|].
      eapply Forall_impl; [|exact Hb]. cbn; intros; lia.
Qed.

End Decaying.

(** X7: with jitter disabled, [0 <= initial <= 2^53], [max >= 0] and a finite
    factor in [[0, 1]], the values returned by successive [Next] calls never
    grow: the sequence is non-increasing and stays in [[0, initial]]. *)
Theorem factor_at_most_one_never_grows conv i f m draws :
  0 <= i <= 2 ^ 53 -> 0 <= m -> is_finite f = true ->
  (0 <= SF2Q f)%Q -> (SF2Q f <= 1)%Q ->
  exists ds,
    outputs conv (New i f m [WithJitter false]) draws = map Ok ds /\
    StronglySorted Z.ge ds /\ Forall (fun d => 0 <= d <= i) ds.
Proof.
  intros Hi Hm Hfin Hf0 Hf1.
  destruct draws as [|r draws].
  - exists []. repeat constructor.
  - rewrite outputs_cons, snd_Next.
    change (advance conv (New i f m [WithJitter false]))
      with (mkBackoff i f m false i true).
    destruct (outputs_decay conv i m f Hi Hm Hfin Hf0 Hf1 draws i ltac:(lia))
      as (ds & Ho & Hs & Hb).
    exists (i :: ds). cbn [map withJitter New fold_left WithJitter current].
    rewrite Ho. split; [reflexivity|]. split.
    + constructor; [assumption|].
      eapply Forall_impl; [|exact Hb]. cbn; intros; lia.
    + constructor; [lia|assumption].
Qed.

Lemma factor_at_most_one_never_grows_witness :
  exists ds,
    outputs amd64_conv
      (New Second f64_0_75 (100 * Millisecond) [WithJitter false])
      [0; 0; 0; 0] = map Ok ds /\
    StronglySorted Z.ge ds /\ Forall (fun d => 0 <= d <= Second) ds.
Proof.
  apply (factor_at_most_one_never_grows amd64_conv).
  - unfold Second; lia.
  - unfold Millisecond; lia.
  - reflexivity.
  - vm_compute; discriminate.
  - vm_compute; discriminate.
Defined.

(** ** The HTTP retry example *)

Lemma Next_fetch_backoff conv i r :
  Next conv (fetch_backoff i) r
  = (fetch_backoff (S i),
     Ok (r mod (Z.min (100 * Millisecond * 2 ^ Z.of_nat i) (5 * Second) + 1))).
Proof.
  assert (Hadv : advance conv (fetch_backoff i) = fetch_backoff (S i)).
  { destruct i as [|p].
    - reflexivity.
    - apply (advance_integral conv (100 * Millisecond) 2 (5 * Second));
        unfold Millisecond, Second; lia. }
  assert (HU : 0 <= Z.min (100 * Millisecond * 2 ^ Z.of_nat i) (5 * Second)
               <= 5 * Second).
  { assert (0 < 2 ^ Z.of_nat i) by (apply Z.pow_pos_nonneg; lia).
    unfold Millisecond, Second; lia. }
  unfold Next. rewrite Hadv. cbn [fetch_backoff withJitter current].
  rewrite wrap64_small
    by (unfold MinInt64, MaxInt64, Second in *; lia).
  unfold Int63n.
  destruct (_ + 1 <=? 0) eqn:E; [apply Z.leb_le in E; lia | reflexivity].
Qed.

Section FetchFacts.

Variable conv : float64 -> Z.
Variable get : nat -> option Response * option error.
Variable draws : nat -> Z.
Variable maxRetries : Z.
Hypothesis Hmr : is_int64 maxRetries.

Lemma not_last_iteration rounds i :
  (S rounds + i)%nat = Z.to_nat maxRetries ->
  (Z.of_nat i <? wrap64 (maxRetries - 1))
  = negb (Nat.eqb rounds 0).
Proof.
  intros Hn. unfold is_int64, MinInt64, MaxInt64 in Hmr.
  rewrite wrap64_small by (unfold MinInt64, MaxInt64; lia).
  destruct rounds as [|p]; cbn [Nat.eqb negb].
  - apply Z.ltb_ge. lia.
  - apply Z.ltb_lt. lia.
Qed.

(** Whatever the requests answer: the requests and the sleeps are counted
    by the iterations, and the [k]-th sleep is a draw from
    [[0, min(100ms * 2^k, 5s)]]. *)
Lemma retry_loop_bounds rounds :
  forall i resp err,
    (rounds + i)%nat = Z.to_nat maxRetries ->
    (snd (fst (retry_loop conv get draws maxRetries rounds i
                          (fetch_backoff i) resp err)) <= rounds)%nat /\
    (length (snd (retry_loop conv get draws maxRetries rounds i
                             (fetch_backoff i) resp err))
     <= Nat.pred rounds)%nat /\
    (forall k w,
       nth_error (snd (retry_loop conv get draws maxRetries rounds i
                                  (fetch_backoff i) resp err)) k = Some w ->
       0 <= w <= Z.min (100 * Millisecond * 2 ^ Z.of_nat (i + k))
                       (5 * Second)) /\
    ((forall k, get k <> (None, None)) ->
     fst (fst (retry_loop conv get draws maxRetries rounds i
                          (fetch_backoff i) resp err)) <> Panicked).
Proof.
  induction rounds as [|rounds IH]; intros i resp err Hn.
  - cbn. split; [lia|]. split; [lia|]. split; [|discriminate].
    intros [|k] w H; discriminate.
  - cbn [retry_loop].
    destruct (get i) as [resp1 err1] eqn:Eg.
    destruct (judge resp1 err1) eqn:Ej.
    + cbn. split; [lia|]. split; [lia|]. split; [|discriminate].
      intros [|k] w H; discriminate.
    + rewrite (not_last_iteration rounds i Hn).
      destruct rounds as [|p]; cbn [Nat.eqb negb].
      * cbn. split; [lia|]. split; [lia|]. split; [|discriminate].
        intros [|k] w H; discriminate.
      * rewrite Next_fetch_backoff.
        specialize (IH (S i) resp1 err1 ltac:(lia)).
        destruct (retry_loop conv get draws maxRetries (S p) (S i)
                             (fetch_backoff (S i)) resp1 err1)
          as [[res q] sl].
        cbn [fst snd length Nat.pred] in *.
        destruct IH as (Hq & Hl & Hw & Hp).
        split; [lia|]. split; [lia|]. split; [|exact Hp].
        intros [|k] w H; cbn [nth_error] in H.
        -- injection H as <-. rewrite Nat.add_0_r.
           assert (0 <= Z.min (100 * Millisecond * 2 ^ Z.of_nat i) (5 * Second)).
           { apply Z.min_glb; [|discriminate].
             apply Z.mul_nonneg_nonneg; [discriminate|].
             apply Z.pow_nonneg; lia. }
           set (U := Z.min _ _) in *.
           pose proof (Z.mod_pos_bound (draws i) (U + 1) ltac:(lia)). lia.
        -- replace (i + S k)%nat with (S i + k)%nat by lia. now apply Hw.
    + cbn. split; [lia|]. split; [lia|]. split.
      * intros [|k] w H; discriminate.
      * intros Hc _. apply (Hc i). rewrite Eg.
        unfold judge in Ej. destruct err1, resp1; try discriminate;
          [destruct (StatusCode r =? StatusOK); discriminate | reflexivity].
Qed.


Lemma retry_loop_first_success j :
  forall rounds i resp err,
    (rounds + i)%nat = Z.to_nat maxRetries ->
    (j < rounds)%nat ->
    (forall k, (k < j)%nat -> attempt get (i + k) = Failure) ->
    attempt get (i + j) = Success ->
    retry_loop conv get draws maxRetries rounds i (fetch_backoff i) resp err
    = (Returned (fst (get (i + j)%nat)) None, S j,
       map (fetch_wait draws) (seq i j)).
Proof.
  induction j as [|j IH]; intros rounds i resp err Hn Hj Hf Hs.
  - destruct rounds as [|r]; [lia|].
    cbn [retry_loop]. unfold attempt in Hs. rewrite Nat.add_0_r in Hs.
    destruct (get i) as [resp1 err1] eqn:Eg. cbn [fst snd] in *.
    rewrite Hs, Nat.add_0_r, Eg. reflexivity.
  - destruct rounds as [|r]; [lia|].
    cbn [retry_loop].
    pose proof (Hf 0%nat ltac:(lia)) as H0. unfold attempt in H0.
    rewrite Nat.add_0_r in H0.
    destruct (get i) as [resp1 err1] eqn:Eg. cbn [fst snd] in H0.
    rewrite H0, (not_last_iteration r i Hn).
    destruct r as [|p]; [lia|]. cbn [Nat.eqb negb].
    rewrite Next_fetch_backoff.
    rewrite (IH (S p) (S i) resp1 err1); [| lia | lia | | ].
    + replace (S i + j)%nat with (i + S j)%nat by lia. reflexivity.
    + intros k Hk. replace (S i + k)%nat with (i + S k)%nat by lia.
      apply Hf. lia.
    + replace (S i + j)%nat with (i + S j)%nat by lia. exact Hs.
Qed.

Lemma retry_loop_exhausted rounds :
  forall i resp err,
    (rounds + i)%nat = Z.to_nat maxRetries ->
    (forall k, (k < rounds)%nat -> attempt get (i + k) = Failure) ->
    retry_loop conv get draws maxRetries rounds i (fetch_backoff i) resp err
    = (match rounds with
       | O => Returned resp err
       | S r => Returned (fst (get (i + r)%nat)) (snd (get (i + r)%nat))
       end,
       rounds, map (fetch_wait draws) (seq i (Nat.pred rounds))).
Proof.
  induction rounds as [|r IH]; intros i resp err Hn Hf.
  - reflexivity.
  - cbn [retry_loop].
    pose proof (Hf 0%nat ltac:(lia)) as H0. unfold attempt in H0.
    rewrite Nat.add_0_r in H0.
    destruct (get i) as [resp1 err1] eqn:Eg. cbn [fst snd] in H0.
    rewrite H0, (not_last_iteration r i Hn).
    destruct r as [|p]; cbn [Nat.eqb negb].
    + cbn [retry_loop Nat.pred seq map]. rewrite Nat.add_0_r, Eg. reflexivity.
    + rewrite Next_fetch_backoff.
      rewrite (IH (S i) resp1 err1); [| lia | ].
      * replace (S i + p)%nat with (i + S p)%nat by lia. reflexivity.
      * intros k Hk. replace (S i + k)%nat with (i + S k)%nat by lia.
        apply Hf. lia.
Qed.

End FetchFacts.

(** X12: whatever the requests answer, [fetchWithRetry] makes at most [maxRetries]
    requests, sleeps at most [maxRetries - 1] times, the [k]-th sleep lies
    in [[0, min(100ms * 2^k, 5s)]], and it panics only if [http.Get] returns
    a nil response with a nil error. *)
Theorem fetchWithRetry_bounded conv get draws maxRetries :
  is_int64 maxRetries ->
  (snd (fst (fetchWithRetry conv get draws maxRetries))
   <= Z.to_nat maxRetries)%nat /\
  (length (snd (fetchWithRetry conv get draws maxRetries))
   <= Nat.pred (Z.to_nat maxRetries))%nat /\
  (forall k w,
     nth_error (snd (fetchWithRetry conv get draws maxRetries)) k = Some w ->
     0 <= w <= Z.min (100 * Millisecond * 2 ^ Z.of_nat k) (5 * Second)) /\
  ((forall k, get k <> (None, None)) ->
   fst (fst (fetchWithRetry conv get draws maxRetries)) <> Panicked).
Proof.
  intros Hmr.
  exact (retry_loop_bounds conv get draws maxRetries Hmr
           (Z.to_nat maxRetries) 0%nat None None (Nat.add_0_r _)).
Qed.

Lemma fetchWithRetry_bounded_witness :
  (snd (fst (fetchWithRetry amd64_conv
               (fun _ => (Some (mkResponse 503), None)) (fun _ => MaxInt64) 4))
   <= Z.to_nat 4)%nat /\
  fst (fst (fetchWithRetry amd64_conv
              (fun _ => (Some (mkResponse 503), None)) (fun _ => MaxInt64) 4))
  = Returned (Some (mkResponse 503)) None.
Proof.
  split.
  - refine (proj1 (fetchWithRetry_bounded amd64_conv _ _ 4 _)).
    vm_compute; split; discriminate.
  - vm_compute. reflexivity.
Defined.

(** X13: if the first [j] requests fail and request [j] answers 200 with no
    error, with [j < maxRetries], then [fetchWithRetry] returns that
    response with a nil error after [j + 1] requests and the [j] waits
    [fetch_wait 0 .. fetch_wait (j-1)]; nothing is requested or slept
    after the success. *)
Theorem fetchWithRetry_returns_first_success conv get draws maxRetries j :
  is_int64 maxRetries ->
  (j < Z.to_nat maxRetries)%nat ->
  (forall k, (k < j)%nat -> attempt get k = Failure) ->
  attempt get j = Success ->
  fetchWithRetry conv get draws maxRetries
  = (Returned (fst (get j)) None, S j, map (fetch_wait draws) (seq 0 j)).
Proof.
  intros Hmr Hj Hf Hs.
  exact (retry_loop_first_success conv get draws maxRetries Hmr j
           (Z.to_nat maxRetries) 0%nat None None
           (Nat.add_0_r _) Hj Hf Hs).
Qed.

Lemma fetchWithRetry_returns_first_success_witness :
  fetchWithRetry amd64_conv
    (fun k => if Nat.ltb k 2 then (None, Some 7%nat)
              else (Some (mkResponse 200), None))
    (fun _ => 123456789012) 5
  = (Returned (Some (mkResponse 200)) None, 3%nat,
     [56787778; 56788395]).
Proof.
  refine (eq_trans
            (fetchWithRetry_returns_first_success amd64_conv _ _ 5 2 _ _ _ _)
            _).
  - vm_compute; split; discriminate.
  - vm_compute; lia.
  - intros [|[|k]] Hk; [reflexivity | reflexivity | lia].
  - reflexivity.
  - vm_compute. reflexivity.
Defined.

(** X14: if none of the [maxRetries] requests succeeds, [fetchWithRetry] makes
    exactly [maxRetries] requests, sleeps between them but not after the
    last, and returns the last request's response and error as they are:
    for a last answer with a status other than 200 the returned error is
    nil.  For [maxRetries <= 0] it requests nothing and returns
    [(nil, nil)]. *)
Theorem fetchWithRetry_exhausted conv get draws maxRetries :
  is_int64 maxRetries ->
  (forall k, (k < Z.to_nat maxRetries)%nat -> attempt get k = Failure) ->
  fetchWithRetry conv get draws maxRetries
  = (match Z.to_nat maxRetries with
     | O => Returned None None
     | S r => Returned (fst (get r)) (snd (get r))
     end,
     Z.to_nat maxRetries,
     map (fetch_wait draws) (seq 0 (Nat.pred (Z.to_nat maxRetries)))).
Proof.
  intros Hmr Hf.
  exact (retry_loop_exhausted conv get draws maxRetries Hmr
           (Z.to_nat maxRetries) 0%nat None None (Nat.add_0_r _) Hf).
Qed.

Lemma fetchWithRetry_exhausted_witness :
  fetchWithRetry amd64_conv (fun _ => (Some (mkResponse 503), None))
                 (fun _ => 0) 3
  = (Returned (Some (mkResponse 503)) None, 3%nat, [0; 0]).
Proof.
  refine (eq_trans (fetchWithRetry_exhausted amd64_conv _ _ 3 _ _) _).
  - vm_compute; split; discriminate.
  - intros k _. reflexivity.
  - vm_compute. reflexivity.
Defined.
